(** * KKMST: cache store, voucher search and virtual scrolling

    A shallow embedding of three JavaScript classes of the repository,
    [CacheManager] (js/cache.js), [VirtualScrollingManager]
    (js/VirtualScrollingManager.js) and [VoucherManager], together with
    the properties their specification states about them; then the
    utilities of the cache, the log and the retry loop of [ErrorHandler]
    (js/errorHandler.js) and the technician filter of [AppController],
    with further properties of these.

    Conventions of the embedding.
    - A JavaScript number that holds a time stamp, a pixel offset, a list
      index or a count is an integer of [Z]; [Math.floor (a / b)] and
      [Math.ceil (a / b)] are the floor and the ceiling of the exact
      quotient.  Non-integral numbers, [NaN] and the infinities are outside
      the model, and so is a division by an item height of [0].
    - A JavaScript [Map] is an association list in insertion order (the
      order in which a [Map] is iterated); plain objects used as records
      are [gmap string jsval]; [localStorage] is a [gmap] from its keys to
      the parsed blobs.
    - Every method is a function from the state before to the state after
      (and a result).  [Date.now ()], the outcome of a [localStorage] write
      and the outcome of a remote call are arguments. *)

From Stdlib Require Import ZArith List Bool Ascii String Lia.
From stdpp Require Import base option list sorting gmap strings pretty.

Open Scope Z_scope.

(** ** JavaScript values *)

Module JS.

(** The values stored in the cache and in the fields of a record.
    [JObj] is a reference to an object or an array, which the code under
    study never inspects. *)
Inductive jsval : Type :=
  | JNull
  | JUndefined
  | JBool (b : bool)
  | JNum (z : Z)
  | JStr (s : string)
  | JObj (ref : positive).

#[global] Instance jsval_eq_dec : EqDecision jsval.
Proof. solve_decision. Defined.

(** [ToBoolean]: what [if (v)], [!v] and [v || w] test. *)
Definition truthy (v : jsval) : bool :=
  match v with
  | JNull | JUndefined => false
  | JBool b => b
  | JNum z => negb (z =? 0)
  | JStr s => negb (String.eqb s "")
  | JObj _ => true
  end.

(** [v || w] *)
Definition or_else (v w : jsval) : jsval := if truthy v then v else w.

(** [v.toString ()] for the values that have the method. *)
Definition toString (v : jsval) : string :=
  match v with
  | JNull => "null"
  | JUndefined => "undefined"
  | JBool true => "true"
  | JBool false => "false"
  | JNum z => pretty z
  | JStr s => s
  | JObj _ => "[object Object]"
  end.

(** A record read from the remote store: a plain object. *)
Abbreviation record := (gmap string jsval).

(** [o.f]: a missing property reads as [undefined]. *)
Definition field (o : record) (f : string) : jsval := default JUndefined (o !! f).

(** *** Strings (ASCII) *)

Definition is_space (c : ascii) : bool :=
  let n := nat_of_ascii c in
  ((n =? 32) || (n =? 9) || (n =? 10) || (n =? 11) || (n =? 12) || (n =? 13))%nat.

Fixpoint trimStart (s : string) : string :=
  match s with
  | EmptyString => EmptyString
  | String c r => if is_space c then trimStart r else s
  end.

(** Drops the white space at the end: a character stays when it is not a
    space or when something remains after it. *)
Fixpoint trimEnd (s : string) : string :=
  match s with
  | EmptyString => EmptyString
  | String c r =>
      match trimEnd r with
      | EmptyString => if is_space c then EmptyString else String c EmptyString
      | r' => String c r'
      end
  end.

(** [s.trim ()] *)
Definition trim (s : string) : string := trimEnd (trimStart s).

Definition lower_ascii (c : ascii) : ascii :=
  let n := nat_of_ascii c in
  if ((65 <=? n) && (n <=? 90))%nat then ascii_of_nat (n + 32) else c.

(** [s.toLowerCase ()] *)
Fixpoint toLowerCase (s : string) : string :=
  match s with
  | EmptyString => EmptyString
  | String c r => String (lower_ascii c) (toLowerCase r)
  end.

(** [s.includes (q)]: [q] occurs in [s] as a contiguous substring. *)
Fixpoint includes (s q : string) : bool :=
  String.prefix q s ||
  match s with
  | EmptyString => false
  | String _ r => includes r q
  end.

(** *** Arrays *)

Section Arrays.
Context {A : Type}.

(** Insertion of [x] in front of the first element that does not come
    strictly before it. *)
Fixpoint sort_insert (cmp : A → A → Z) (x : A) (l : list A) : list A :=
  match l with
  | [] => [x]
  | y :: r => if cmp x y <=? 0 then x :: y :: r else y :: sort_insert cmp x r
  end.

(** [l.sort (cmp)]: the sort is stable, so for a comparator that is a
    difference of keys the result is the one of this insertion sort. *)
Fixpoint sort (cmp : A → A → Z) (l : list A) : list A :=
  match l with
  | [] => []
  | x :: r => sort_insert cmp x (sort cmp r)
  end.

(** The position that [slice] and [splice] compute from a relative
    index: a negative index counts from the end, and the result is
    clamped to [0 .. length]. *)
Definition clamp_index (i : Z) (l : list A) : nat :=
  let len := Z.of_nat (length l) in
  Z.to_nat (if i <? 0 then Z.max (len + i) 0 else Z.min i len).

(** [l.slice (0, e)] *)
Definition slice0 (e : Z) (l : list A) : list A := take (clamp_index e l) l.

(** [l.slice (b, e)] *)
Definition slice (b e : Z) (l : list A) : list A :=
  drop (clamp_index b l) (take (clamp_index e l) l).

(** [l.splice (i, 0, x)] *)
Definition splice_insert (i : Z) (x : A) (l : list A) : list A :=
  take (clamp_index i l) l ++ x :: drop (clamp_index i l) l.

(** [l.splice (i, 1)] *)
Definition splice_remove (i : Z) (l : list A) : list A :=
  take (clamp_index i l) l ++ drop (S (clamp_index i l)) l.

(** [l[i]] *)
Definition nth_js (l : list A) (i : Z) : option A :=
  if i <? 0 then None else l !! Z.to_nat i.
End Arrays.

(** *** Maps in insertion order *)

Section OrderedMap.
Context {V : Type}.

Fixpoint map_get (k : string) (m : list (string * V)) : option V :=
  match m with
  | [] => None
  | (k', v) :: r => if String.eqb k k' then Some v else map_get k r
  end.

(** [m.set (k, v)]: a key that is present keeps its place. *)
Fixpoint map_set (k : string) (v : V) (m : list (string * V)) : list (string * V) :=
  match m with
  | [] => [(k, v)]
  | (k', v') :: r =>
      if String.eqb k k' then (k, v) :: r else (k', v') :: map_set k v r
  end.

Fixpoint map_delete (k : string) (m : list (string * V)) : list (string * V) :=
  match m with
  | [] => []
  | (k', v') :: r =>
      if String.eqb k k' then r else (k', v') :: map_delete k r
  end.

(** [m.size] *)
Definition map_size (m : list (string * V)) : Z := Z.of_nat (length m).
End OrderedMap.

End JS.

(** ** js/cache.js *)

Module CacheManager.
Import JS.

(** [appConfig.cacheExpiry] of js/config.js: five minutes, in milliseconds. *)
Definition cacheExpiry : Z := 5 * 60 * 1000.

(** The instance, and the [localStorage] it mirrors its entries to.  A
    mirrored entry is the blob [{ data, timestamp }]; it is kept parsed,
    which takes [JSON.parse (JSON.stringify (x))] to give back [x]. *)
Record state : Type := mk {
  cache : list (string * jsval);
  cacheTimestamps : list (string * Z);
  maxCacheSize : Z;
  localStorage : gmap string (jsval * Z)
}.

(** [new CacheManager ()] over a given [localStorage]. *)
Definition new (ls : gmap string (jsval * Z)) : state :=
  mk [] [] 50 ls.

(** The key [`cache_${key}`]. *)
Definition storageKey (key : string) : string := String.append "cache_" key.

(** [delete (key)] *)
Definition delete (key : string) (s : state) : state :=
  mk (map_delete key (cache s))
     (map_delete key (cacheTimestamps s))
     (maxCacheSize s)
     (base.delete (storageKey key) (localStorage s)).

(** [saveToStorage (key, data, timestamp)]; [ok = false] is a write that
    throws (quota exceeded, a value that does not serialize), which the
    method catches and logs. *)
Definition saveToStorage (ok : bool) (key : string) (data : jsval)
    (timestamp : Z) (s : state) : state :=
  if ok then
    mk (cache s) (cacheTimestamps s) (maxCacheSize s)
       (<[storageKey key := (data, timestamp)]> (localStorage s))
  else s.

(** [loadFromStorage (key)] at time [now]. *)
Definition loadFromStorage (now : Z) (key : string) (s : state) : jsval * state :=
  match localStorage s !! storageKey key with
  | None => (JNull, s)
  | Some (data, timestamp) =>
      if now - timestamp >? cacheExpiry then
        (JNull,
         mk (cache s) (cacheTimestamps s) (maxCacheSize s)
            (base.delete (storageKey key) (localStorage s)))
      else
        (data,
         mk (map_set key data (cache s))
            (map_set key timestamp (cacheTimestamps s))
            (maxCacheSize s) (localStorage s))
  end.

(** The test of [cleanup] on an entry of [cacheTimestamps]:
    [now - timestamp > appConfig.cacheExpiry]. *)
Definition expired (now : Z) (kt : string * Z) : Prop :=
  now - kt.2 > cacheExpiry.

#[global] Instance expired_dec now kt : Decision (expired now kt).
Proof. unfold expired. apply _. Defined.

(** The keys that [cleanup] collects in [expiredKeys]. *)
Definition expiredKeys (now : Z) (s : state) : list string :=
  (filter (expired now) (cacheTimestamps s)).*1.

(** [cleanup ()] at time [now]. *)
Definition cleanup (now : Z) (s : state) : state :=
  let s1 := foldl (λ st key, delete key st) s (expiredKeys now s) in
  if map_size (cache s1) >? maxCacheSize s1 then
    let sortedEntries :=
      sort (λ a b : string * Z, a.2 - b.2) (cacheTimestamps s1) in
    let toRemove :=
      slice0 (map_size (cache s1) - maxCacheSize s1) sortedEntries in
    foldl (λ st (kt : string * Z), delete kt.1 st) s1 toRemove
  else s1.

(** [set (key, data, expiry)]: [timestamp] is the [Date.now ()] of the
    method, [now'] the one [cleanup] reads if it runs, [ok] the outcome of
    the [localStorage] write.  The method makes no use of [expiry]. *)
Definition set (timestamp now' : Z) (ok : bool) (key : string) (data : jsval)
    (expiry : Z) (s : state) : state :=
  let s1 :=
    mk (map_set key data (cache s))
       (map_set key timestamp (cacheTimestamps s))
       (maxCacheSize s) (localStorage s) in
  let s2 := if map_size (cache s1) >? maxCacheSize s1 then cleanup now' s1 else s1 in
  saveToStorage ok key data timestamp s2.

(** [get (key)] at time [now].  [!timestamp] holds of a missing time stamp
    and of the time stamp [0]. *)
Definition get (now : Z) (key : string) (s : state) : jsval * state :=
  match map_get key (cacheTimestamps s) with
  | None => loadFromStorage now key s
  | Some timestamp =>
      if timestamp =? 0 then loadFromStorage now key s
      else if now - timestamp >? cacheExpiry then (JNull, delete key s)
      else (default JUndefined (map_get key (cache s)), s)
  end.

(** [has (key)] at time [now]. *)
Definition has (now : Z) (key : string) (s : state) : bool * state :=
  match map_get key (cacheTimestamps s) with
  | None =>
      let (stored, s') := loadFromStorage now key s in
      (negb (bool_decide (stored = JNull)), s')
  | Some timestamp =>
      if timestamp =? 0 then
        let (stored, s') := loadFromStorage now key s in
        (negb (bool_decide (stored = JNull)), s')
      else (now - timestamp <=? cacheExpiry, s)
  end.

(** [clear ()] *)
Definition clear (s : state) : state :=
  mk [] [] (maxCacheSize s)
     (filter (λ kv : string * (jsval * Z), String.prefix "cache_" kv.1 = false)
             (localStorage s)).

(** What a loader does when it is awaited. *)
Inductive outcome : Type :=
  | Resolved (data : jsval)
  | Rejected (error : jsval).

(** The observable result of [cacheUtils.getOrFetch]: what the promise
    settles to, the cache afterwards, and how many times the loader was
    called. *)
Record fetched : Type := mkFetched {
  settled : outcome;
  after : state;
  loaderCalls : nat
}.

(** [cacheUtils.getOrFetch (key, fetchFunction, expiry)] on the shared
    instance.  [now] is the time of the [get]; [timestamp], [now'] and [ok]
    are those of the [set] that follows the loader.  The call is taken as
    one step: nothing else touches the cache while the loader is awaited. *)
Definition getOrFetch (now timestamp now' : Z) (ok : bool) (key : string)
    (fetchFunction : outcome) (expiry : Z) (s : state) : fetched :=
  let (cached, s1) := get now key s in
  if truthy cached then mkFetched (Resolved cached) s1 0
  else
    match fetchFunction with
    | Resolved data =>
        mkFetched (Resolved data) (set timestamp now' ok key data expiry s1) 1
    | Rejected error => mkFetched (Rejected error) s1 1
    end.

(** *** Notions the properties are stated with *)

(** The two maps hold the same keys in the same order, each key once. *)
Definition wf (s : state) : Prop :=
  (cache s).*1 = (cacheTimestamps s).*1 ∧ NoDup (cacheTimestamps s).*1.

(** The entries of [cacheTimestamps] that are not expired at [now]. *)
Definition live (now : Z) (s : state) : list (string * Z) :=
  filter (λ kt, ¬ expired now kt) (cacheTimestamps s).

(** The arguments of one call of [set], with the clock readings and the
    outcome of the storage write that go with it. *)
Record setCall : Type := mkSet {
  c_timestamp : Z;
  c_now : Z;
  c_ok : bool;
  c_key : string;
  c_data : jsval;
  c_expiry : Z
}.

Definition call (c : setCall) (s : state) : state :=
  set (c_timestamp c) (c_now c) (c_ok c) (c_key c) (c_data c) (c_expiry c) s.


End CacheManager.

(** ** js/VirtualScrollingManager.js *)

Module VirtualScrollingManager.
Import JS.

(** *** The page: event listeners *)

(** A function object that can be handed to [addEventListener].  A method
    read off an instance ([this.handleScroll]) is the one function object
    of the prototype; every evaluation of an arrow function makes a new
    object, numbered here in order of creation. *)
Inductive callback : Type :=
  | HandleScroll
  | UpdateContainerHeight
  | ScrollArrow (object : nat)
  | ResizeArrow (object : nat).

#[global] Instance callback_eq_dec : EqDecision callback.
Proof. solve_decision. Defined.

(** The part of the document the renderer registers itself with:
    whether the selector finds a container, the listeners of that
    container and of [window], and the number of function objects created
    so far. *)
Record page : Type := mkPage {
  hasContainer : bool;
  containerListeners : list (string * callback);
  windowListeners : list (string * callback);
  functionObjects : nat
}.

(** [target.addEventListener (type, cb)]: a listener that is registered
    already is not registered twice. *)
Definition addEventListener (type : string) (cb : callback)
    (ls : list (string * callback)) : list (string * callback) :=
  if bool_decide ((type, cb) ∈ ls) then ls else ls ++ [(type, cb)].

(** [target.removeEventListener (type, cb)]: removes the listener with this
    type and this very function object, if there is one. *)
Fixpoint removeEventListener (type : string) (cb : callback)
    (ls : list (string * callback)) : list (string * callback) :=
  match ls with
  | [] => []
  | l :: r =>
      if bool_decide (l = (type, cb)) then r
      else l :: removeEventListener type cb r
  end.

(** *** The instance *)

(** The fields of the instance, followed by what it shows: the height of
    the spacer [virtualContent], whether the spacer is attached to the
    container, the items in [visibleContainer] (index and data) and the
    offset of its [translateY]. *)
Record state : Type := mk {
  itemHeight : Z;
  bufferSize : Z;
  data : list record;
  scrollTop : Z;
  containerHeight : Z;
  totalHeight : Z;
  startIndex : Z;
  endIndex : Z;
  renderFunction : option positive;
  spacerHeight : Z;
  spacerAttached : bool;
  rendered : list (Z * record);
  translateY : Z
}.

(** [Math.floor (a / b)] *)
Definition floor_div (a b : Z) : Z := a / b.

(** [Math.ceil (a / b)] *)
Definition ceil_div (a b : Z) : Z := - ((- a) / b).

(** [setupEventListeners ()] *)
Definition setupEventListeners (p : page) : page :=
  let n := functionObjects p in
  mkPage (hasContainer p)
    (addEventListener "scroll" (ScrollArrow n) (containerListeners p))
    (addEventListener "resize" (ResizeArrow (S n)) (windowListeners p))
    (S (S n)).

(** [updateContainerHeight ()]; [clientHeight] is the value read from
    the container. *)
Definition updateContainerHeight (clientHeight : Z) (s : state) : state :=
  mk (itemHeight s) (bufferSize s) (data s) (scrollTop s) clientHeight
     (totalHeight s) (startIndex s) (endIndex s) (renderFunction s)
     (spacerHeight s) (spacerAttached s) (rendered s) (translateY s).

(** [new VirtualScrollingManager (selector, itemHeight, bufferSize)]:
    throws ([None]) when the selector finds no container. *)
Definition new (clientHeight : Z) (itemHeight bufferSize : Z) (p : page)
    : option (state * page) :=
  if hasContainer p then
    Some (updateContainerHeight clientHeight
            (mk itemHeight bufferSize [] 0 0 0 0 0 None 0 true [] 0),
          setupEventListeners p)
  else None.

(** [calculateVisibleRange ()] *)
Definition calculateVisibleRange (s : state) : state :=
  mk (itemHeight s) (bufferSize s) (data s) (scrollTop s) (containerHeight s)
     (totalHeight s)
     (Z.max 0 (floor_div (scrollTop s) (itemHeight s) - bufferSize s))
     (Z.min (Z.of_nat (length (data s)) - 1)
            (ceil_div (scrollTop s + containerHeight s) (itemHeight s)
             + bufferSize s))
     (renderFunction s) (spacerHeight s) (spacerAttached s) (rendered s)
     (translateY s).

(** The items that the loop of [updateVisibleItems] creates: one for each
    [i] from [startIndex] to [endIndex] at which [data] has an element. *)
Definition visibleItems (s : state) : list (Z * record) :=
  omap (λ i, (λ d, (i, d)) <$> nth_js (data s) i)
       (seqZ (startIndex s) (endIndex s - startIndex s + 1)).

(** [updateVisibleItems ()] *)
Definition updateVisibleItems (s : state) : state :=
  let s1 := calculateVisibleRange s in
  mk (itemHeight s1) (bufferSize s1) (data s1) (scrollTop s1)
     (containerHeight s1) (totalHeight s1) (startIndex s1) (endIndex s1)
     (renderFunction s1) (spacerHeight s1) (spacerAttached s1)
     (visibleItems s1) (startIndex s1 * itemHeight s1).

(** The assignments [this.data = d], [this.totalHeight = data.length *
    itemHeight] and [virtualContent.style.height = totalHeight px]. *)
Definition withData (d : list record) (s : state) : state :=
  let h := Z.of_nat (length d) * itemHeight s in
  mk (itemHeight s) (bufferSize s) d (scrollTop s) (containerHeight s)
     h (startIndex s) (endIndex s) (renderFunction s) h (spacerAttached s)
     (rendered s) (translateY s).

(** [setData (data, renderFunction)] *)
Definition setData (d : list record) (rf : option positive) (s : state) : state :=
  let s1 :=
    mk (itemHeight s) (bufferSize s) (data s) (scrollTop s) (containerHeight s)
       (totalHeight s) (startIndex s) (endIndex s) rf (spacerHeight s)
       (spacerAttached s) (rendered s) (translateY s) in
  updateVisibleItems (withData d s1).

(** [handleScroll ()]; [newScrollTop] is the value read from the
    container.  [|d| > itemHeight / 2] is compared after doubling. *)
Definition handleScroll (newScrollTop : Z) (s : state) : state :=
  if 2 * Z.abs (newScrollTop - scrollTop s) >? itemHeight s then
    updateVisibleItems
      (mk (itemHeight s) (bufferSize s) (data s) newScrollTop
          (containerHeight s) (totalHeight s) (startIndex s) (endIndex s)
          (renderFunction s) (spacerHeight s) (spacerAttached s)
          (rendered s) (translateY s))
  else s.

(** The listener of [resize]: [updateContainerHeight ()] and then
    [updateVisibleItems ()]. *)
Definition onResize (clientHeight : Z) (s : state) : state :=
  updateVisibleItems (updateContainerHeight clientHeight s).

(** [scrollToIndex (index)]: the value assigned to [container.scrollTop],
    if any. *)
Definition scrollToIndex (index : Z) (s : state) : option Z :=
  if (0 <=? index) && (index <? Z.of_nat (length (data s)))
  then Some (index * itemHeight s) else None.

(** [scrollToTop ()]: the value assigned to [container.scrollTop]. *)
Definition scrollToTop (s : state) : Z := 0.

(** [scrollToBottom ()]: the value assigned to [container.scrollTop]. *)
Definition scrollToBottom (s : state) : Z := totalHeight s.

(** [getVisibleItems ()] *)
Definition getVisibleItems (s : state) : list record :=
  slice (startIndex s) (endIndex s + 1) (data s).

(** [updateItem (index, newData)]: the merged object replaces the element,
    and the item that shows it, if there is one and a render function is
    set, is rendered again. *)
Definition updateItem (index : Z) (newData : record) (s : state) : state :=
  if (0 <=? index) && (index <? Z.of_nat (length (data s))) then
    let merged := newData ∪ default ∅ (nth_js (data s) index) in
    mk (itemHeight s) (bufferSize s)
       (<[Z.to_nat index := merged]> (data s))
       (scrollTop s) (containerHeight s) (totalHeight s) (startIndex s)
       (endIndex s) (renderFunction s) (spacerHeight s) (spacerAttached s)
       (match renderFunction s with
        | Some _ =>
            (λ it : Z * record, if it.1 =? index then (index, merged) else it)
              <$> rendered s
        | None => rendered s
        end)
       (translateY s)
  else s.

(** [addItem (item, index = -1)] *)
Definition addItem (item : record) (index : option Z) (s : state) : state :=
  let index := default (-1) index in
  let d := if index =? -1 then data s ++ [item]
           else splice_insert index item (data s) in
  updateVisibleItems (withData d s).

(** [removeItem (index)] *)
Definition removeItem (index : Z) (s : state) : state :=
  if (0 <=? index) && (index <? Z.of_nat (length (data s))) then
    updateVisibleItems (withData (splice_remove index (data s)) s)
  else s.

(** [clear ()] *)
Definition clear (s : state) : state :=
  mk (itemHeight s) (bufferSize s) [] (scrollTop s) (containerHeight s)
     0 (startIndex s) (endIndex s) (renderFunction s) 0 (spacerAttached s)
     [] (translateY s).

(** [setItemHeight (newHeight)] *)
Definition setItemHeight (newHeight : Z) (s : state) : state :=
  let s1 :=
    mk newHeight (bufferSize s) (data s) (scrollTop s) (containerHeight s)
       (totalHeight s) (startIndex s) (endIndex s) (renderFunction s)
       (spacerHeight s) (spacerAttached s) (rendered s) (translateY s) in
  updateVisibleItems (withData (data s1) s1).

(** [destroy ()]: the two [removeEventListener] calls name the methods of
    the instance; the spacer is detached. *)
Definition destroy (sp : state * page) : state * page :=
  let (s, p) := sp in
  (mk (itemHeight s) (bufferSize s) (data s) (scrollTop s) (containerHeight s)
      (totalHeight s) (startIndex s) (endIndex s) (renderFunction s)
      (spacerHeight s) false (rendered s) (translateY s),
   mkPage (hasContainer p)
     (removeEventListener "scroll" HandleScroll (containerListeners p))
     (removeEventListener "resize" UpdateContainerHeight (windowListeners p))
     (functionObjects p)).

(** The methods that change an instance once it is constructed. *)
Inductive call : Type :=
  | SetData (d : list record) (rf : option positive)
  | Scroll (newScrollTop : Z)
  | Resize (clientHeight : Z)
  | UpdateItem (index : Z) (newData : record)
  | AddItem (item : record) (index : option Z)
  | RemoveItem (index : Z)
  | Clear
  | SetItemHeight (newHeight : Z).

Definition exec (c : call) (s : state) : state :=
  match c with
  | SetData d rf => setData d rf s
  | Scroll t => handleScroll t s
  | Resize h => onResize h s
  | UpdateItem i nd => updateItem i nd s
  | AddItem it i => addItem it i s
  | RemoveItem i => removeItem i s
  | Clear => clear s
  | SetItemHeight h => setItemHeight h s
  end.

(** The states of an instance: the one the constructor leaves, and those
    that method calls lead to from there. *)
Inductive reachable : state → Prop :=
  | reachable_new clientHeight h b p s p' :
      new clientHeight h b p = Some (s, p') → reachable s
  | reachable_exec c s :
      reachable s → reachable (exec c s).

(** [n] rounds of constructing a renderer on the page and destroying it. *)
Fixpoint cycles (n : nat) (clientHeight h b : Z) (p : page) : page :=
  match n with
  | O => p
  | S n' =>
      match new clientHeight h b p with
      | Some sp => cycles n' clientHeight h b (destroy sp).2
      | None => p
      end
  end.

(** *** Notions the properties are stated with *)

(** [totalHeight] is the length of the list times the item height. *)
Definition heightInvariant (s : state) : Prop :=
  totalHeight s = Z.of_nat (length (data s)) * itemHeight s.

(** The visible range lies within the list: [startIndex ≤ endIndex], both
    between [0] and the last index; for the empty list the range is
    empty. *)
Definition rangeWithinList (s : state) : Prop :=
  match data s with
  | [] => endIndex s < startIndex s
  | _ :: _ =>
      0 ≤ startIndex s ∧ startIndex s ≤ endIndex s
      ∧ endIndex s ≤ Z.of_nat (length (data s)) - 1
  end.

(** A page with a container and no listener yet. *)
Definition emptyPage : page := mkPage true [] [] 0.

(** The page with the listeners of [k] renderers, in order of creation. *)
Definition pageWithListeners (k : nat) : page :=
  mkPage true
    ((λ i, ("scroll", ScrollArrow (2 * i))) <$> seq 0 k)
    ((λ i, ("resize", ResizeArrow (S (2 * i)))) <$> seq 0 k)
    (2 * k).

End VirtualScrollingManager.

(** ** VoucherManager *)

Module VoucherManager.
Import JS.

(** The texts that [showMessage] is called with. *)
Inductive message : Type :=
  | Caching
  | CacheReady
  | Searching
  | NotFound (query : string)
  | FirstHundred
  | Found (n : nat).

(** The result ceiling of the search loop. *)
Definition ceiling : nat := 100.

(** The delay of the search timer, in milliseconds. *)
Definition debounceDelay : Z := 300.

(** The instance and what it works on.
    - The fields of the instance.
    - The document: the value of the input [voucherSearchInput] ([None]
      when there is no such element), whether its listeners are
      registered, the last message shown and whether it was shown as an
      error, the vouchers whose rows [displaySearchResults] last put in
      the table ([None] while it has not run), and how many times
      [renderDailyVouchers] went past its guard.  The header and the
      total of the table are left out.
    - The browser: the time, the pending time-outs of the search (handle
      and due time) and the next handle, handles being positive.
    - The remote collection: the documents (identifier and data) that
      [getDocs] resolves to, or [None] when it rejects; the contexts handed
      to the error handler.
    - [searches] records every call of [performVoucherSearch]: the time and
      the trimmed value it read. *)
Record state : Type := mk {
  currentUserId : option string;
  searchDebounceTimer : option positive;
  allVouchersCache : option (list record);
  searchResults : list record;
  isSearchMode : bool;
  searchInput : option string;
  listening : bool;
  messageBox : option (message * bool);
  tableRows : option (list record);
  dailyRenders : nat;
  clock : Z;
  timers : list (positive * Z);
  nextHandle : positive;
  remote : option (list (string * record));
  errors : list string;
  searches : list (Z * string)
}.

Definition set_currentUserId v (s : state) : state :=
  mk v (searchDebounceTimer s) (allVouchersCache s) (searchResults s)
     (isSearchMode s) (searchInput s) (listening s) (messageBox s)
     (tableRows s) (dailyRenders s) (clock s) (timers s) (nextHandle s)
     (remote s) (errors s) (searches s).

Definition set_searchDebounceTimer v (s : state) : state :=
  mk (currentUserId s) v (allVouchersCache s) (searchResults s)
     (isSearchMode s) (searchInput s) (listening s) (messageBox s)
     (tableRows s) (dailyRenders s) (clock s) (timers s) (nextHandle s)
     (remote s) (errors s) (searches s).

Definition set_allVouchersCache v (s : state) : state :=
  mk (currentUserId s) (searchDebounceTimer s) v (searchResults s)
     (isSearchMode s) (searchInput s) (listening s) (messageBox s)
     (tableRows s) (dailyRenders s) (clock s) (timers s) (nextHandle s)
     (remote s) (errors s) (searches s).

Definition set_searchResults v (s : state) : state :=
  mk (currentUserId s) (searchDebounceTimer s) (allVouchersCache s) v
     (isSearchMode s) (searchInput s) (listening s) (messageBox s)
     (tableRows s) (dailyRenders s) (clock s) (timers s) (nextHandle s)
     (remote s) (errors s) (searches s).

Definition set_isSearchMode v (s : state) : state :=
  mk (currentUserId s) (searchDebounceTimer s) (allVouchersCache s)
     (searchResults s) v (searchInput s) (listening s) (messageBox s)
     (tableRows s) (dailyRenders s) (clock s) (timers s) (nextHandle s)
     (remote s) (errors s) (searches s).

Definition set_searchInput v (s : state) : state :=
  mk (currentUserId s) (searchDebounceTimer s) (allVouchersCache s)
     (searchResults s) (isSearchMode s) v (listening s) (messageBox s)
     (tableRows s) (dailyRenders s) (clock s) (timers s) (nextHandle s)
     (remote s) (errors s) (searches s).

Definition set_listening v (s : state) : state :=
  mk (currentUserId s) (searchDebounceTimer s) (allVouchersCache s)
     (searchResults s) (isSearchMode s) (searchInput s) v (messageBox s)
     (tableRows s) (dailyRenders s) (clock s) (timers s) (nextHandle s)
     (remote s) (errors s) (searches s).

Definition set_messageBox v (s : state) : state :=
  mk (currentUserId s) (searchDebounceTimer s) (allVouchersCache s)
     (searchResults s) (isSearchMode s) (searchInput s) (listening s) v
     (tableRows s) (dailyRenders s) (clock s) (timers s) (nextHandle s)
     (remote s) (errors s) (searches s).

Definition set_tableRows v (s : state) : state :=
  mk (currentUserId s) (searchDebounceTimer s) (allVouchersCache s)
     (searchResults s) (isSearchMode s) (searchInput s) (listening s)
     (messageBox s) v (dailyRenders s) (clock s) (timers s) (nextHandle s)
     (remote s) (errors s) (searches s).

Definition set_dailyRenders v (s : state) : state :=
  mk (currentUserId s) (searchDebounceTimer s) (allVouchersCache s)
     (searchResults s) (isSearchMode s) (searchInput s) (listening s)
     (messageBox s) (tableRows s) v (clock s) (timers s) (nextHandle s)
     (remote s) (errors s) (searches s).

Definition set_clock v (s : state) : state :=
  mk (currentUserId s) (searchDebounceTimer s) (allVouchersCache s)
     (searchResults s) (isSearchMode s) (searchInput s) (listening s)
     (messageBox s) (tableRows s) (dailyRenders s) v (timers s) (nextHandle s)
     (remote s) (errors s) (searches s).

Definition set_timers v (s : state) : state :=
  mk (currentUserId s) (searchDebounceTimer s) (allVouchersCache s)
     (searchResults s) (isSearchMode s) (searchInput s) (listening s)
     (messageBox s) (tableRows s) (dailyRenders s) (clock s) v (nextHandle s)
     (remote s) (errors s) (searches s).

Definition set_nextHandle v (s : state) : state :=
  mk (currentUserId s) (searchDebounceTimer s) (allVouchersCache s)
     (searchResults s) (isSearchMode s) (searchInput s) (listening s)
     (messageBox s) (tableRows s) (dailyRenders s) (clock s) (timers s) v
     (remote s) (errors s) (searches s).

Definition set_errors v (s : state) : state :=
  mk (currentUserId s) (searchDebounceTimer s) (allVouchersCache s)
     (searchResults s) (isSearchMode s) (searchInput s) (listening s)
     (messageBox s) (tableRows s) (dailyRenders s) (clock s) (timers s)
     (nextHandle s) (remote s) v (searches s).

Definition set_searches v (s : state) : state :=
  mk (currentUserId s) (searchDebounceTimer s) (allVouchersCache s)
     (searchResults s) (isSearchMode s) (searchInput s) (listening s)
     (messageBox s) (tableRows s) (dailyRenders s) (clock s) (timers s)
     (nextHandle s) (remote s) (errors s) v.

(** [new VoucherManager (firebaseService, errorHandler)] in a document
    whose search input holds [input], at time [now]. *)
Definition new (input : option string) (now : Z)
    (docs : option (list (string * record))) : state :=
  mk None None None [] false input false None None 0 now [] 1 docs [] [].

(** *** The browser's time-outs *)

(** [setTimeout (callback, delay)]: the handle, and the state with the
    time-out pending. *)
Definition setTimeout (delay : Z) (s : state) : positive * state :=
  let h := nextHandle s in
  (h, set_nextHandle (Pos.succ h) (set_timers (timers s ++ [(h, clock s + delay)]) s)).

(** [clearTimeout (handle)] *)
Definition clearTimeout (h : positive) (s : state) : state :=
  set_timers (filter (λ tm : positive * Z, tm.1 ≠ h) (timers s)) s.

(** *** Methods *)

(** [showMessage (message, isError)] *)
Definition showMessage (m : message) (isError : bool) (s : state) : state :=
  set_messageBox (Some (m, isError)) s.

(** [renderDailyVouchers ()] *)
Definition renderDailyVouchers (s : state) : state :=
  if isSearchMode s then s else set_dailyRenders (S (dailyRenders s)) s.

(** [displaySearchResults ()] *)
Definition displaySearchResults (s : state) : state :=
  set_tableRows (Some (searchResults s)) s.

(** The object [{ id: doc.id, ...data }]. *)
Definition withId (doc : string * record) : record :=
  doc.2 ∪ {[ "id" := JStr doc.1 ]}.

(** [loadAllVouchersCache ()], the remote call taken as one step. *)
Definition loadAllVouchersCache (s : state) : state :=
  match allVouchersCache s with
  | Some _ => s
  | None =>
      let s1 := showMessage Caching false s in
      match remote s1 with
      | Some docs =>
          showMessage CacheReady false
            (set_allVouchersCache (Some (withId <$> docs)) s1)
      | None =>
          set_allVouchersCache (Some [])
            (set_errors (errors s1 ++ ["Failed to load voucher cache"]) s1)
      end
  end.

(** The test of the search loop on one voucher. *)
Definition matches (searchQuery : string) (voucher : record) : bool :=
  let voucherNumber :=
    toLowerCase (toString (or_else (field voucher "voucherNumber") (JStr ""))) in
  includes voucherNumber searchQuery.

(** The search loop over the vouchers from index [i] on: [results] is
    [this.searchResults] so far and [examined] the number of vouchers
    tested so far.  The loop is left when the results reach the ceiling. *)
Fixpoint scan (searchQuery : string) (vouchers : list record)
    (results : list record) (examined : nat) : list record * nat :=
  match vouchers with
  | [] => (results, examined)
  | voucher :: rest =>
      if matches searchQuery voucher then
        let results' := results ++ [voucher] in
        if (ceiling <=? length results')%nat then (results', S examined)
        else scan searchQuery rest results' (S examined)
      else scan searchQuery rest results (S examined)
  end.

(** [!this.currentUserId] *)
Definition noUser (s : state) : bool :=
  match currentUserId s with
  | None => true
  | Some u => String.eqb u ""
  end.

(** The trimmed value of the search input, [''] without the element. *)
Definition currentQuery (s : state) : string :=
  match searchInput s with
  | Some v => trim v
  | None => ""
  end.

(** [performVoucherSearch ()], taken as one step. *)
Definition performVoucherSearch (s : state) : state :=
  let voucherSearchQuery := currentQuery s in
  let s := set_searches (searches s ++ [(clock s, voucherSearchQuery)]) s in
  if String.eqb voucherSearchQuery "" || noUser s then s
  else
    let s1 := loadAllVouchersCache s in
    let s2 := showMessage Searching false s1 in
    let searchQuery := toLowerCase voucherSearchQuery in
    let s3 :=
      set_searchResults
        (scan searchQuery (default [] (allVouchersCache s2)) [] 0).1 s2 in
    if (length (searchResults s3) =? 0)%nat then
      set_isSearchMode false (showMessage (NotFound voucherSearchQuery) true s3)
    else
      let s4 := set_isSearchMode true s3 in
      let m := if (100 <=? length (searchResults s4))%nat
               then FirstHundred else Found (length (searchResults s4)) in
      displaySearchResults (showMessage m false s4).

(** [handleSearchInput (e)], [value] being [e.target.value]. *)
Definition handleSearchInput (value : string) (s : state) : state :=
  let voucherSearchQuery := trim value in
  let s1 := match searchDebounceTimer s with
            | Some h => clearTimeout h s
            | None => s
            end in
  if String.eqb voucherSearchQuery "" then
    renderDailyVouchers (set_searchResults [] (set_isSearchMode false s1))
  else
    let (h, s2) := setTimeout debounceDelay s1 in
    set_searchDebounceTimer (Some h) s2.

(** The listener of [keypress] on the search input. *)
Definition handleKeypress (key : string) (s : state) : state :=
  if String.eqb key "Enter" then
    let s1 := match searchDebounceTimer s with
              | Some h => clearTimeout h s
              | None => s
              end in
    performVoucherSearch s1
  else s.

(** [initialize (userId)]: the listeners of the search input are
    registered when the element exists. *)
Definition initialize (userId : string) (s : state) : state :=
  set_listening (bool_decide (is_Some (searchInput s)))
    (set_currentUserId (Some userId) s).

(** [invalidateVoucherCache ()] *)
Definition invalidateVoucherCache (s : state) : state :=
  set_allVouchersCache None s.

(** *** Events *)

(** The time-outs that are due at time [t] run, earliest first, each at its
    due time; then the time is [t]. *)
Definition advance (t : Z) (s : state) : state :=
  let firing :=
    sort (λ a b : positive * Z, a.2 - b.2)
         (filter (λ tm : positive * Z, tm.2 ≤ t) (timers s)) in
  let s1 := set_timers (filter (λ tm : positive * Z, ¬ tm.2 ≤ t) (timers s)) s in
  let s2 :=
    foldl (λ st (tm : positive * Z),
             performVoucherSearch (set_clock (Z.max (clock st) tm.2) st))
          s1 firing in
  set_clock (Z.max (clock s2) t) s2.

(** What happens to the search input. *)
Inductive event : Type :=
  | Input (value : string)
  | Keypress (key : string)
  | Assign (value : string).

(** The event itself: typing changes the value and then dispatches
    [input]; a key press dispatches [keypress]; an assignment by a script
    changes the value and dispatches nothing. *)
Definition handle (e : event) (s : state) : state :=
  match e with
  | Input v =>
      match searchInput s with
      | Some _ =>
          let s1 := set_searchInput (Some v) s in
          if listening s1 then handleSearchInput v s1 else s1
      | None => s
      end
  | Keypress k => if listening s then handleKeypress k s else s
  | Assign v =>
      match searchInput s with
      | Some _ => set_searchInput (Some v) s
      | None => s
      end
  end.

(** An event at time [t]: what is due before it runs first. *)
Definition dispatch (te : Z * event) (s : state) : state :=
  handle te.2 (advance te.1 s).

(** A sequence of timed events, in order. *)
Definition run (tes : list (Z * event)) (s : state) : state :=
  foldl (λ st te, dispatch te st) s tes.

(** *** Notions the properties are stated with *)

(** The vouchers of a collection that the loop would accept, in order. *)
Definition matching (searchQuery : string) (vouchers : list record) : list record :=
  filter (λ v, matches searchQuery v = true) vouchers.

(** The collection that a search started in state [s] scans. *)
Definition collection (s : state) : list record :=
  default [] (allVouchersCache (loadAllVouchersCache s)).

(** Every pending time-out is the one that [searchDebounceTimer] holds. *)
Definition timersOwned (s : state) : Prop :=
  ∀ tm, tm ∈ timers s → searchDebounceTimer s = Some tm.1.

(** The search input exists and its listeners are registered. *)
Definition attached (s : state) : Prop :=
  listening s = true ∧ is_Some (searchInput s).


(** The state between two keystrokes of a burst: the time-out of the
    last keystroke, at time [t] with value [v], is the one pending, and
    the searches so far are [log]. *)
Definition armed (t : Z) (v : string) (log : list (Z * string)) (s : state) : Prop :=
  (∃ h, timers s = [(h, t + debounceDelay)] ∧ searchDebounceTimer s = Some h)
  ∧ clock s = t ∧ searchInput s = Some v ∧ listening s = true
  ∧ searches s = log.


End VoucherManager.

(** ** js/cache.js: statistics and utilities *)

Module CacheUtils.
Import JS CacheManager.

(** The object that [getStats] returns. *)
Record stats : Type := mkStats {
  size : Z;
  maxSize : Z;
  keys : list string
}.

(** [CacheManager.getStats ()] *)
Definition getStats (s : state) : stats :=
  mkStats (map_size (cache s)) (maxCacheSize s) (cache s).*1.

(** [cacheUtils.invalidatePattern (pattern)] on the shared instance. *)
Definition invalidatePattern (pattern : string) (s : state) : state :=
  foldl (λ st key, if includes key pattern then delete key st else st)
        s (keys (getStats s)).

(** [cacheUtils.preload (key, fetchFunction)]: the value the promise
    resolves to and the cache afterwards; [timestamp], [now'] and [ok] are
    those of the [set].  A loader that rejects is logged and gives
    [null]. *)
Definition preload (timestamp now' : Z) (ok : bool) (key : string)
    (fetchFunction : outcome) (s : state) : jsval * state :=
  match fetchFunction with
  | Resolved data => (data, set timestamp now' ok key data cacheExpiry s)
  | Rejected _ => (JNull, s)
  end.

End CacheUtils.

(** ** The voucher manager in its surroundings *)

Module VoucherWorld.
Import JS VoucherManager.

(** The collection changes outside the manager: documents are written or
    removed, or the store becomes unreachable ([None]). *)
Definition set_remote (docs : option (list (string * record))) (s : state) : state :=
  mk (currentUserId s) (searchDebounceTimer s) (allVouchersCache s)
     (searchResults s) (isSearchMode s) (searchInput s) (listening s)
     (messageBox s) (tableRows s) (dailyRenders s) (clock s) (timers s)
     (nextHandle s) docs (errors s) (searches s).


(** At most one time-out is pending, and it is the recorded one. *)
Definition singleTimer (s : state) : Prop :=
  timersOwned s ∧ (length (timers s) ≤ 1)%nat.

End VoucherWorld.

(** ** js/errorHandler.js *)

Module ErrorHandler.
Import JS.

(** *** The log *)

Section Log.
Context {errorInfo : Type}.

(** The instance, and the item [errorLog] of [localStorage] ([None] when
    there is none). *)
Record state : Type := mk {
  errorLog : list errorInfo;
  maxLogSize : Z;
  storedLog : option (list errorInfo)
}.

(** [new ErrorHandler ()] *)
Definition new (stored : option (list errorInfo)) : state := mk [] 100 stored.

(** [logError (errorInfo)]; [ok] tells whether [localStorage.setItem]
    succeeds. *)
Definition logError (ok : bool) (info : errorInfo) (s : state) : state :=
  let log := info :: errorLog s in
  let log := if Z.of_nat (length log) >? maxLogSize s
             then slice 0 (maxLogSize s) log else log in
  mk log (maxLogSize s) (if ok then Some log else storedLog s).

(** [getErrorLog ()] *)
Definition getErrorLog (s : state) : list errorInfo := errorLog s.

(** [clearErrorLog ()] *)
Definition clearErrorLog (s : state) : state := mk [] (maxLogSize s) None.

End Log.

Arguments state : clear implicits.

(** *** Retrying *)

(** The result of a promise. *)
Inductive settled : Type :=
  | Fulfilled (v : jsval)
  | Failed (error : jsval).

(** The loop of [retry] from iteration [i] on.  [operation k] is what the
    call number [k] of the operation settles to, [calls] counts the calls
    made so far and [waits] lists the delays waited so far.  [fuel] bounds
    the iterations; [None] means that it ran out. *)
Fixpoint retry_from (fuel : nat) (operation : nat → settled) (maxRetries : Z)
    (i delay : Z) (calls : nat) (waits : list Z)
    : option (settled * nat * list Z) :=
  if i <? maxRetries then
    match fuel with
    | O => None
    | S fuel =>
        match operation calls with
        | Fulfilled v => Some (Fulfilled v, S calls, waits)
        | Failed error =>
            if i =? maxRetries - 1 then Some (Failed error, S calls, waits)
            else retry_from fuel operation maxRetries (i + 1) (delay * 2)
                            (S calls) (waits ++ [delay])
        end
    end
  else Some (Fulfilled JUndefined, calls, waits).

(** [retry (operation, maxRetries = 3, delay = 1000)]: what the promise
    settles to, the number of calls of the operation and the delays
    waited between them. *)
Definition retry (operation : nat → settled) (maxRetries delay : option Z)
    : option (settled * nat * list Z) :=
  let maxRetries := default 3 maxRetries in
  let delay := default 1000 delay in
  retry_from (Z.to_nat maxRetries) operation maxRetries 0 delay 0 [].

End ErrorHandler.

(** ** AppController: the technician filter *)

Module AppController.
Import JS.

(** The parts of the controller that the filter reads: the two managers
    ([virtualScrollingManager] is [null] until the virtual scrolling is
    initialized) and the value of the select element [technicianSelect]
    ([None] when the document has no such element). *)
Record state : Type := mk {
  voucherManager : VoucherManager.state;
  virtualScrollingManager : option VirtualScrollingManager.state;
  technicianSelect : option string
}.

(** [filterVouchersByTechnician ()]; [renderVoucherRow] is the function
    object that [this.renderVoucherRow.bind (this)] creates. *)
Definition filterVouchersByTechnician (renderVoucherRow : positive) (a : state)
    : state :=
  match technicianSelect a, virtualScrollingManager a with
  | Some selectedTechnician, Some v =>
      let allVouchers :=
        default [] (VoucherManager.allVouchersCache (voucherManager a)) in
      let filteredVouchers :=
        if truthy (JStr selectedTechnician)
        then filter (λ x, field x "technicianName" = JStr selectedTechnician)
                    allVouchers
        else allVouchers in
      mk (voucherManager a)
         (Some (VirtualScrollingManager.setData filteredVouchers
                  (Some renderVoucherRow) v))
         (technicianSelect a)
  | _, _ => a
  end.

End AppController.

(** * Properties *)

(** ** Arrays and ordered maps *)

Module JSFacts.
Import JS.

(** *** The functions on small inputs *)

Example trim_drops_outer_space : trim "  ab c  " = "ab c".
Proof. reflexivity. Qed.

Example toLowerCase_letters_only : toLowerCase "AbC-12Z" = "abc-12z".
Proof. reflexivity. Qed.

Example includes_substring :
  includes "hello" "ell" = true ∧ includes "hello" "" = true
  ∧ includes "hello" "lo " = false.
Proof. repeat split. Qed.

Example toString_number : toString (JNum (-120)) = "-120".
Proof. reflexivity. Qed.

(** Equal keys stay in their order. *)
Example sort_is_stable :
  sort (λ a b : string * Z, a.2 - b.2) [("a", 3); ("b", 1); ("c", 3); ("d", 1)]
  = [("b", 1); ("d", 1); ("a", 3); ("c", 3)].
Proof. reflexivity. Qed.

Example slice0_clamps :
  slice0 2 [1; 2; 3] = [1; 2] ∧ slice0 7 [1; 2; 3] = [1; 2; 3]
  ∧ slice0 (-1) [1; 2; 3] = [1; 2].
Proof. repeat split. Qed.

Example splice_insert_positions :
  splice_insert 1 9 [1; 2; 3] = [1; 9; 2; 3]
  ∧ splice_insert (-1) 9 [1; 2; 3] = [1; 2; 9; 3]
  ∧ splice_insert 7 9 [1; 2; 3] = [1; 2; 3; 9].
Proof. repeat split. Qed.

Section Lists.
Context {A : Type}.
Implicit Types l : list A.

Lemma filter_all (P : A → Prop) `{!∀ x, Decision (P x)} l :
  (∀ x, x ∈ l → P x) → filter P l = l.
Proof.
  induction l as [|x l IH]; intros Hall; [done|].
  rewrite filter_cons_True by (apply Hall; left).
  f_equal. apply IH. intros y Hy. apply Hall. by right.
Qed.

Lemma filter_none (P : A → Prop) `{!∀ x, Decision (P x)} l :
  (∀ x, x ∈ l → ¬ P x) → filter P l = [].
Proof.
  induction l as [|x l IH]; intros Hall; [done|].
  rewrite filter_cons_False by (apply Hall; left).
  apply IH. intros y Hy. apply Hall. by right.
Qed.

Lemma filter_agree (P Q : A → Prop)
    `{!∀ x, Decision (P x)} `{!∀ x, Decision (Q x)} l :
  (∀ x, x ∈ l → P x ↔ Q x) → filter P l = filter Q l.
Proof.
  induction l as [|x l IH]; intros Hall; [done|].
  assert (filter P l = filter Q l) as E.
  { apply IH. intros y Hy. apply Hall. by right. }
  rewrite !filter_cons.
  destruct (decide (P x)) as [Hp|Hp], (decide (Q x)) as [Hq|Hq];
    rewrite ?E; try done; exfalso; apply (Hall x) in Hp || apply Hp, (Hall x);
    (done || left).
Qed.


(** *** The sort *)

Section Sort.
Context (key : A → Z).
Local Abbreviation cmp := (λ a b : A, key a - key b).
Local Abbreviation le := (λ a b : A, key a ≤ key b).

Lemma sort_insert_perm x l : sort_insert cmp x l ≡ₚ x :: l.
Proof.
  induction l as [|y l IH]; [done|]. cbn [sort_insert].
  destruct (key x - key y <=? 0); [done|].
  rewrite IH. apply perm_swap.
Qed.

Lemma sort_perm l : sort cmp l ≡ₚ l.
Proof.
  induction l as [|x l IH]; [done|]. cbn [sort].
  by rewrite sort_insert_perm, IH.
Qed.

Lemma sort_insert_sorted x l :
  StronglySorted le l → StronglySorted le (sort_insert cmp x l).
Proof.
  induction 1 as [|y l Hl IH Hy]; cbn [sort_insert].
  { repeat constructor. }
  destruct (Z.leb_spec (key x - key y) 0) as [Hc|Hc]; cbn in *.
  - constructor; [by constructor|].
    constructor; [lia|].
    eapply Forall_impl; [exact Hy|]. cbn. intros; lia.
  - constructor; [done|].
    rewrite sort_insert_perm. constructor; [lia|done].
Qed.

Lemma sort_sorted l : StronglySorted le (sort cmp l).
Proof.
  induction l as [|x l IH]; cbn [sort]; [constructor|].
  by apply sort_insert_sorted.
Qed.

(** The first [n] elements of the sorted array are at most as large
    as the others. *)
Lemma sort_take_drop n l a b :
  a ∈ take n (sort cmp l) → b ∈ drop n (sort cmp l) → key a ≤ key b.
Proof.
  intros Ha Hb. pose proof (sort_sorted l) as Hs.
  rewrite <- (take_drop n (sort cmp l)) in Hs.
  exact (StronglySorted_app_1_elem_of le _ _ a b Hs Ha Hb).
Qed.
End Sort.
End Lists.

Section Maps.
Context {V : Type}.
Implicit Types m : list (string * V).

Lemma map_get_set_eq k v m : map_get k (map_set k v m) = Some v.
Proof.
  induction m as [|[k' v'] m IH]; cbn; [by rewrite String.eqb_refl|].
  destruct (String.eqb_spec k k'); cbn.
  - by rewrite String.eqb_refl.
  - by destruct (String.eqb_spec k k').
Qed.

Lemma map_get_set_ne k k' v m :
  k ≠ k' → map_get k' (map_set k v m) = map_get k' m.
Proof.
  intros Hne. induction m as [|[k0 v0] m IH]; cbn.
  - by destruct (String.eqb_spec k' k).
  - destruct (String.eqb_spec k k0); cbn.
    + subst. by destruct (String.eqb_spec k' k0).
    + by rewrite IH.
Qed.

Lemma map_get_None k m : map_get k m = None ↔ k ∉ m.*1.
Proof.
  induction m as [|[k' v'] m IH]; cbn.
  - split; [intros _; apply not_elem_of_nil|done].
  - rewrite not_elem_of_cons. destruct (String.eqb_spec k k') as [->|Hne].
    + split; [done|]. by intros [? _].
    + rewrite IH. tauto.
Qed.

Lemma map_get_Some k v m : map_get k m = Some v → (k, v) ∈ m.
Proof.
  induction m as [|[k' v'] m IH]; cbn; [done|].
  destruct (String.eqb_spec k k'); intros H.
  - simplify_eq. left.
  - right. auto.
Qed.

Lemma map_set_keys_elem k v m x : x ∈ (map_set k v m).*1 ↔ x = k ∨ x ∈ m.*1.
Proof.
  induction m as [|[k' v'] m IH]; cbn.
  - rewrite list_elem_of_singleton, elem_of_nil. tauto.
  - destruct (String.eqb_spec k k') as [->|Hne]; cbn.
    + rewrite !elem_of_cons. tauto.
    + rewrite !elem_of_cons, IH. tauto.
Qed.

Lemma map_set_NoDup k v m : NoDup m.*1 → NoDup (map_set k v m).*1.
Proof.
  induction m as [|[k' v'] m IH]; cbn.
  - intros _. apply NoDup_singleton.
  - rewrite NoDup_cons. intros [Hk Hm].
    destruct (String.eqb_spec k k'); cbn; subst.
    + by apply NoDup_cons.
    + apply NoDup_cons. split; [|auto].
      rewrite map_set_keys_elem. intros [E|E]; [congruence|by apply Hk].
Qed.

Lemma map_set_length k v m :
  length (map_set k v m) = if decide (k ∈ m.*1) then length m else S (length m).
Proof.
  induction m as [|[k' v'] m IH]; cbn.
  - rewrite decide_False; [done|apply not_elem_of_nil].
  - destruct (String.eqb_spec k k'); cbn; subst.
    + rewrite decide_True; [done|left].
    + rewrite IH. destruct (decide (k ∈ m.*1)).
      * rewrite decide_True; [done|by right].
      * rewrite decide_False; [done|]. rewrite not_elem_of_cons. done.
Qed.

Lemma map_delete_filter k m :
  NoDup m.*1 → map_delete k m = filter (λ kv, kv.1 ≠ k) m.
Proof.
  induction m as [|[k' v'] m IH]; [done|]. cbn [map_delete].
  rewrite fmap_cons, NoDup_cons. cbn [fst]. intros [Hk Hm].
  destruct (String.eqb_spec k k'); subst.
  - rewrite filter_cons_False by (cbn; naive_solver).
    symmetry. apply filter_all. intros [k v] Hkv E. cbn in E. subst.
    apply Hk. by apply (list_elem_of_fmap_2 fst) in Hkv.
  - rewrite filter_cons_True by (cbn; congruence). f_equal. auto.
Qed.

Lemma filter_keys (P : string → Prop) `{!∀ x, Decision (P x)} m :
  (filter (λ kv, P kv.1) m).*1 = filter P m.*1.
Proof.
  induction m as [|[k v] m IH]; [done|].
  rewrite fmap_cons, !filter_cons. cbn.
  destruct (decide (P k)); cbn; by rewrite IH.
Qed.

Lemma filter_keys_NoDup (P : string * V → Prop) `{!∀ x, Decision (P x)} m :
  NoDup m.*1 → NoDup (filter P m).*1.
Proof.
  intros Hn. eapply sublist_NoDup; [exact Hn|].
  apply fmap_sublist, sublist_filter.
Qed.

Lemma NoDup_keys_inj m k v v' :
  NoDup m.*1 → (k, v) ∈ m → (k, v') ∈ m → v = v'.
Proof.
  induction m as [|[k0 v0] m IH]; [by intros _ ?%elem_of_nil|].
  rewrite fmap_cons, NoDup_cons, !elem_of_cons. cbn.
  intros [Hk Hm] [E|H1] [E'|H2]; simplify_eq; auto.
  - destruct Hk. by apply (list_elem_of_fmap_2 fst) in H2.
  - destruct Hk. by apply (list_elem_of_fmap_2 fst) in H1.
Qed.

(** Deleting keys one after the other keeps the entries under the
    other keys. *)
Lemma foldl_map_delete ks m :
  NoDup m.*1 →
  foldl (λ m k, map_delete k m) m ks = filter (λ kv, kv.1 ∉ ks) m.
Proof.
  revert m. induction ks as [|k ks IH]; intros m Hm; cbn [foldl].
  - symmetry. apply filter_all. intros ? _. apply not_elem_of_nil.
  - rewrite map_delete_filter by done.
    rewrite IH by by apply filter_keys_NoDup.
    rewrite list_filter_filter. apply list_filter_iff.
    intros [k' v]. cbn. rewrite not_elem_of_cons. tauto.
Qed.
End Maps.

End JSFacts.

(** ** The cache *)

Module CacheFacts.
Import JS JSFacts CacheManager.

Lemma wf_new ls : wf (new ls).
Proof. split; [done|]. apply NoDup_nil_2. Qed.

Lemma map_set_keys_sync {V W} k (v : V) (w : W) m m' :
  m.*1 = m'.*1 → (map_set k v m).*1 = (map_set k w m').*1.
Proof.
  revert m'. induction m as [|[k1 v1] m IH]; intros [|[k2 v2] m']; try done.
  cbn. intros [= -> E]. destruct (String.eqb_spec k k2); cbn; [by rewrite E|].
  f_equal. auto.
Qed.

(** The state that [set] and [loadFromStorage] build by writing one key
    in both maps. *)
Lemma wf_write k v t mx ls s :
  wf s → wf (mk (map_set k v (cache s)) (map_set k t (cacheTimestamps s)) mx ls).
Proof.
  intros [Hk Hn]. split; cbn.
  - by apply map_set_keys_sync.
  - by apply map_set_NoDup.
Qed.

(** *** Deletion *)

Lemma foldl_delete_cache ks s :
  cache (foldl (λ st k, delete k st) s ks)
  = foldl (λ m k, map_delete k m) (cache s) ks.
Proof. revert s. induction ks as [|k ks IH]; intros s; cbn; [done|]. by rewrite IH. Qed.

Lemma foldl_delete_timestamps ks s :
  cacheTimestamps (foldl (λ st k, delete k st) s ks)
  = foldl (λ m k, map_delete k m) (cacheTimestamps s) ks.
Proof. revert s. induction ks as [|k ks IH]; intros s; cbn; [done|]. by rewrite IH. Qed.

Lemma foldl_delete_max ks s :
  maxCacheSize (foldl (λ st k, delete k st) s ks) = maxCacheSize s.
Proof. revert s. induction ks as [|k ks IH]; intros s; cbn; [done|]. by rewrite IH. Qed.

(** Deleting a list of keys filters both maps by the same test on keys. *)
Lemma delete_keys ks s :
  wf s →
  let s' := foldl (λ st k, delete k st) s ks in
  cacheTimestamps s' = filter (λ kt, kt.1 ∉ ks) (cacheTimestamps s)
  ∧ cache s' = filter (λ kv, kv.1 ∉ ks) (cache s)
  ∧ maxCacheSize s' = maxCacheSize s
  ∧ wf s'.
Proof.
  intros [Hk Hn]. cbn zeta.
  assert (cacheTimestamps (foldl (λ st k, delete k st) s ks)
          = filter (λ kt, kt.1 ∉ ks) (cacheTimestamps s)) as Ht.
  { rewrite foldl_delete_timestamps. by apply foldl_map_delete. }
  assert (cache (foldl (λ st k, delete k st) s ks)
          = filter (λ kv, kv.1 ∉ ks) (cache s)) as Hc.
  { rewrite foldl_delete_cache. apply foldl_map_delete. by rewrite Hk. }
  split_and!; [done|done|apply foldl_delete_max|].
  split.
  - rewrite Hc, Ht.
    pose proof (filter_keys (λ k, k ∉ ks) (cache s)) as E1.
    pose proof (filter_keys (λ k, k ∉ ks) (cacheTimestamps s)) as E2.
    cbn beta in E1, E2. by rewrite E1, E2, Hk.
  - rewrite Ht. by apply filter_keys_NoDup.
Qed.

Lemma wf_delete k s : wf s → wf (delete k s).
Proof. intros H. apply (delete_keys [k] s H). Qed.

(** *** [cleanup] *)

(** The first pass of [cleanup] leaves the entries that are not expired. *)
Lemma expired_pass now s :
  wf s →
  let s1 := foldl (λ st k, delete k st) s (expiredKeys now s) in
  cacheTimestamps s1 = live now s ∧ maxCacheSize s1 = maxCacheSize s ∧ wf s1.
Proof.
  intros Hwf. cbn zeta.
  destruct (delete_keys (expiredKeys now s) s Hwf) as (Ht & _ & Hm & Hwf').
  split_and!; [|done..].
  rewrite Ht. unfold live. apply filter_agree. intros [k t] Hkt. cbn.
  unfold expiredKeys. rewrite list_elem_of_fmap.
  split.
  - intros Hn He. apply Hn. exists (k, t). split; [done|].
    by apply list_elem_of_filter.
  - intros Hn ([k' t'] & E & [He Hin]%list_elem_of_filter). cbn in E. subst k'.
    destruct Hwf as [_ Hnd].
    by rewrite (NoDup_keys_inj _ _ _ _ Hnd Hkt Hin) in Hn.
Qed.

Lemma wf_lengths s : wf s → length (cache s) = length (cacheTimestamps s).
Proof.
  intros [Hk _]. by rewrite <- (length_fmap fst (cache s)), Hk, length_fmap.
Qed.

(** The second pass, on a state with more than [maxCacheSize] entries:
    what remains is, up to order, the sorted time stamps without their
    first [size - maxCacheSize] entries. *)
Lemma oldest_pass s :
  wf s → 0 ≤ maxCacheSize s → map_size (cache s) > maxCacheSize s →
  let sorted := sort (λ a b : string * Z, a.2 - b.2) (cacheTimestamps s) in
  let n := Z.to_nat (map_size (cache s) - maxCacheSize s) in
  let s' := foldl (λ st (kt : string * Z), delete kt.1 st) s
                  (slice0 (map_size (cache s) - maxCacheSize s) sorted) in
  cacheTimestamps s' ≡ₚ drop n sorted
  ∧ cacheTimestamps s' `sublist_of` cacheTimestamps s
  ∧ maxCacheSize s' = maxCacheSize s
  ∧ wf s'.
Proof.
  intros Hwf Hmax Hsize. cbn zeta.
  set (sorted := sort _ _).
  set (d := map_size (cache s) - maxCacheSize s).
  pose proof (sort_perm snd (cacheTimestamps s)) as Hperm. fold sorted in Hperm.
  assert (slice0 d sorted = take (Z.to_nat d) sorted) as ->.
  { assert (length sorted = length (cache s)) as El.
    { rewrite Hperm. symmetry. by apply wf_lengths. }
    unfold slice0, clamp_index. f_equal. rewrite El.
    subst d. unfold map_size in *.
    destruct (Z.ltb_spec (Z.of_nat (length (cache s)) - maxCacheSize s) 0);
      [lia|]. f_equal. lia. }
  rewrite <- (foldl_fmap (λ st k, delete k st) s _ fst).
  destruct (delete_keys (fst <$> take (Z.to_nat d) sorted) s Hwf)
    as (Ht & _ & Hm & Hwf').
  split_and!; [|rewrite Ht; apply sublist_filter|done..].
  rewrite Ht.
  etrans; [apply filter_Permutation; symmetry; exact Hperm|].
  rewrite <- (take_drop (Z.to_nat d) sorted) at 1.
  rewrite filter_app.
  assert (NoDup (sorted.*1)) as Hnd by (rewrite Hperm; apply Hwf).
  rewrite <- (take_drop (Z.to_nat d) sorted), fmap_app in Hnd.
  apply NoDup_app in Hnd as (_ & Hdisj & _).
  rewrite filter_none, filter_all; [done| |].
  - intros x Hx Hin. apply (Hdisj _ Hin). by apply list_elem_of_fmap_2.
  - intros x Hx Hn. apply Hn. by apply list_elem_of_fmap_2.
Qed.

(** What [cleanup] keeps. *)
Lemma cleanup_spec now s :
  wf s → 0 ≤ maxCacheSize s →
  let kept := cacheTimestamps (cleanup now s) in
  wf (cleanup now s)
  ∧ maxCacheSize (cleanup now s) = maxCacheSize s
  ∧ kept `sublist_of` live now s
  ∧ length kept = (length (live now s) `min` Z.to_nat (maxCacheSize s))%nat
  ∧ (∀ e e', e ∈ live now s → e ∉ kept → e' ∈ kept → e.2 ≤ e'.2).
Proof.
  intros Hwf Hmax. cbn zeta. unfold cleanup.
  destruct (expired_pass now s Hwf) as (Ht & Hm & Hwf1).
  set (s1 := foldl _ s (expiredKeys now s)) in *.
  pose proof (wf_lengths s1 Hwf1) as Hlen.
  destruct (Z.gtb_spec (map_size (cache s1)) (maxCacheSize s1)) as [Hgt|Hle].
  - destruct (oldest_pass s1 Hwf1) as (Hp & Hsub & Hm' & Hwf'); [lia..|].
    set (s2 := foldl _ s1 _) in *.
    set (sorted := sort _ _) in *.
    set (n := Z.to_nat _) in *.
    pose proof (sort_perm snd (cacheTimestamps s1)) as Hperm. fold sorted in Hperm.
    split_and!; [done|congruence|by rewrite <- Ht| |].
    + rewrite Hp, length_drop, Hperm, <- Ht. subst n. unfold map_size in *. lia.
    + intros e e' He Hne He'. rewrite <- Ht, <- Hperm in He.
      rewrite <- (take_drop n sorted), elem_of_app in He.
      rewrite Hp in He'. destruct He as [He|He].
      * exact (sort_take_drop snd n _ e e' He He').
      * destruct Hne. by rewrite Hp.
  - split_and!; [done|done|by rewrite Ht| |].
    + rewrite <- Ht. unfold map_size in *. lia.
    + intros e e' He Hne. by rewrite Ht in Hne.
Qed.

(** *** [set] *)




(** *** [get], [has], [loadFromStorage], [clear] *)

Lemma wf_loadFromStorage now k s : wf s → wf (loadFromStorage now k s).2.
Proof.
  intros Hwf. unfold loadFromStorage.
  destruct (localStorage s !! storageKey k) as [[d t]|]; [|done].
  destruct (now - t >? cacheExpiry); cbn; [done|]. by apply wf_write.
Qed.

Lemma wf_get now k s : wf s → wf (get now k s).2.
Proof.
  intros Hwf. unfold get.
  destruct (map_get k (cacheTimestamps s)) as [t|];
    [|by apply wf_loadFromStorage].
  destruct (t =? 0); [by apply wf_loadFromStorage|].
  destruct (now - t >? cacheExpiry); cbn; [by apply wf_delete|done].
Qed.

Lemma wf_clear s : wf (clear s).
Proof. split; [done|]. apply NoDup_nil_2. Qed.

(** The time-to-live handed to [set] has no effect on the state. *)
Lemma set_expiry_irrelevant t now' ok k d x x' s :
  set t now' ok k d x s = set t now' ok k d x' s.
Proof. reflexivity. Qed.

(** A [get] that follows a [set] which did not have to evict: the payload
    is served as long as the entry is younger than [cacheExpiry]. *)
Lemma get_after_set t now' ok k d x s now :
  wf s → t ≠ 0 → map_size (map_set k d (cache s)) ≤ maxCacheSize s →
  (get now k (set t now' ok k d x s)).1
  = if now - t >? cacheExpiry then JNull else d.
Proof.
  intros Hwf Ht Hsize. unfold set. cbn [cache maxCacheSize].
  destruct (Z.gtb_spec (map_size (map_set k d (cache s))) (maxCacheSize s));
    [lia|].
  unfold get.
  assert (∀ s0, cacheTimestamps (saveToStorage ok k d t s0) = cacheTimestamps s0
                ∧ cache (saveToStorage ok k d t s0) = cache s0) as Hsave.
  { intros s0. unfold saveToStorage. by destruct ok. }
  destruct (Hsave (mk (map_set k d (cache s))
                      (map_set k t (cacheTimestamps s))
                      (maxCacheSize s) (localStorage s))) as [-> E].
  cbn [cacheTimestamps]. rewrite map_get_set_eq.
  destruct (Z.eqb_spec t 0); [done|].
  destruct (now - t >? cacheExpiry); [done|].
  cbn [fst]. rewrite E. cbn [cache]. by rewrite map_get_set_eq.
Qed.

(** *** [getOrFetch] *)

Lemma getOrFetch_hit now t now' ok k f x s :
  truthy (get now k s).1 = true →
  getOrFetch now t now' ok k f x s
  = mkFetched (Resolved (get now k s).1) (get now k s).2 0.
Proof. unfold getOrFetch. destruct (get now k s) as [c s1]. cbn. by intros ->. Qed.

Lemma getOrFetch_miss_resolved now t now' ok k d x s :
  truthy (get now k s).1 = false →
  getOrFetch now t now' ok k (Resolved d) x s
  = mkFetched (Resolved d) (set t now' ok k d x (get now k s).2) 1.
Proof. unfold getOrFetch. destruct (get now k s) as [c s1]. cbn. by intros ->. Qed.

Lemma getOrFetch_miss_rejected now t now' ok k e x s :
  truthy (get now k s).1 = false →
  getOrFetch now t now' ok k (Rejected e) x s
  = mkFetched (Rejected e) (get now k s).2 1.
Proof. unfold getOrFetch. destruct (get now k s) as [c s1]. cbn. by intros ->. Qed.

(** *** The claims *)

(** C1 (the code departs from it).  The claim: an entry stored by
    [set (key, value, ttl)] is served by [get] while [now - stored_at ≤ ttl]
    and is absent once [now - stored_at > ttl].  The code drops the [ttl]
    of the call and measures every entry against [appConfig.cacheExpiry]:
    an entry stored at time 1 with a time-to-live of one second is still
    served two seconds later, and an entry stored with a time-to-live of
    ten minutes is absent after six minutes and forty seconds. *)
Theorem get_ignores_ttl :
  (get 2001 "v" (set 1 1 true "v" (JStr "X") 1000 (new ∅))).1 = JStr "X"
  ∧ (get 400001 "v" (set 1 1 true "v" (JStr "X") 600000 (new ∅))).1 = JNull.
Proof. split; vm_compute; reflexivity. Qed.



(** The maps after a [set], according to whether it has to clean up. *)
Lemma set_maps t n ok k d x s :
  let s1 := mk (map_set k d (cache s)) (map_set k t (cacheTimestamps s))
               (maxCacheSize s) (localStorage s) in
  let s2 := if map_size (cache s1) >? maxCacheSize s1 then cleanup n s1 else s1 in
  cache (set t n ok k d x s) = cache s2
  ∧ cacheTimestamps (set t n ok k d x s) = cacheTimestamps s2
  ∧ maxCacheSize (set t n ok k d x s) = maxCacheSize s2.
Proof. cbn zeta. unfold set, saveToStorage. by destruct ok. Qed.

(** The scenario of the specification: with a bound of two entries,
    [set ("a")], [set ("b")], [set ("c")] at times in this order, none of
    them expired when the third call cleans up, leave [b] and [c]. *)
Lemma three_sets_keep_the_last_two
    t1 t2 t3 n1 n2 n3 o1 o2 o3 d1 d2 d3 x1 x2 x3 ls :
  t1 ≤ t2 ≤ t3 → n3 - t1 ≤ cacheExpiry →
  let s := set t3 n3 o3 "c" d3 x3
             (set t2 n2 o2 "b" d2 x2
                (set t1 n1 o1 "a" d1 x1 (mk [] [] 2 ls))) in
  cache s = [("b", d2); ("c", d3)]
  ∧ cacheTimestamps s = [("b", t2); ("c", t3)].
Proof.
  intros Ht Hn. cbn zeta.
  set (sa := set t1 n1 o1 "a" d1 x1 _).
  destruct (set_maps t1 n1 o1 "a" d1 x1 (mk [] [] 2 ls)) as (Ca & Ta & Ma).
  fold sa in Ca, Ta, Ma.
  cbn [map_set cache cacheTimestamps maxCacheSize] in Ca, Ta, Ma.
  change (map_size _ >? 2) with false in Ca, Ta, Ma.
  cbn [cache cacheTimestamps maxCacheSize] in Ca, Ta, Ma.
  set (sb := set t2 n2 o2 "b" d2 x2 sa).
  destruct (set_maps t2 n2 o2 "b" d2 x2 sa) as (Cb & Tb & Mb).
  fold sb in Cb, Tb, Mb. rewrite Ca, Ta, Ma in Cb, Tb, Mb.
  cbn [map_set String.eqb Ascii.eqb Bool.eqb cache cacheTimestamps
       maxCacheSize] in Cb, Tb, Mb.
  change (map_size _ >? 2) with false in Cb, Tb, Mb.
  cbn [cache cacheTimestamps maxCacheSize] in Cb, Tb, Mb.
  destruct (set_maps t3 n3 o3 "c" d3 x3 sb) as (-> & -> & _).
  rewrite Cb, Tb, Mb.
  cbn [map_set String.eqb Ascii.eqb Bool.eqb cache maxCacheSize].
  change (map_size _ >? 2) with true. cbv iota.
  generalize (localStorage sb). intros ls'.
  unfold cleanup, expiredKeys. cbn [cacheTimestamps].
  rewrite !filter_cons, filter_nil. unfold expired. cbn [snd].
  rewrite !decide_False by lia. cbn [fmap list_fmap foldl].
  cbn [cache cacheTimestamps maxCacheSize].
  change (map_size _ >? 2) with true. cbv iota.
  cbn [sort sort_insert snd].
  destruct (Z.leb_spec (t2 - t3) 0); [|lia]. cbn [sort_insert snd].
  destruct (Z.leb_spec (t1 - t2) 0); [|lia].
  change (slice0 _ ?l) with (take 1 l).
  cbn [take foldl delete fst cache cacheTimestamps map_delete
       String.eqb Ascii.eqb Bool.eqb].
  done.
Qed.

(** C7 (the code departs from it).  The claim: [getOrFetch] returns the
    cached value without calling the loader whenever a valid entry exists
    for the key.  The code tests the cached value for truth, not for
    presence: with the valid entry [0] under ["monthly_totals"] ([has]
    holds, [get] returns [0]) the loader is called and its result
    replaces the entry. *)
Theorem getOrFetch_refetches_falsy_payload :
  let s := set 5 5 true "monthly_totals" (JNum 0) cacheExpiry (new ∅) in
  let r := getOrFetch 10 10 10 true "monthly_totals" (Resolved (JNum 7))
             cacheExpiry s in
  (has 10 "monthly_totals" s).1 = true
  ∧ (get 10 "monthly_totals" s).1 = JNum 0
  ∧ loaderCalls r = 1%nat
  ∧ settled r = Resolved (JNum 7)
  ∧ cache (after r) = [("monthly_totals", JNum 7)].
Proof. cbn zeta. split_and!; vm_compute; reflexivity. Qed.

End CacheFacts.

(** ** The renderer *)

Module ScrollFacts.
Import JS VirtualScrollingManager.

(** *** Floor and ceiling *)

Lemma floor_div_unique a b f :
  0 < b → f * b ≤ a < (f + 1) * b → floor_div a b = f.
Proof.
  intros Hb Hf. unfold floor_div. symmetry.
  apply (Z.div_unique a b f (a - f * b)); lia.
Qed.

Lemma ceil_div_unique a b c :
  0 < b → (c - 1) * b < a ≤ c * b → ceil_div a b = c.
Proof.
  intros Hb Hc. unfold ceil_div.
  assert ((- a) / b = - c) as ->; [|lia].
  symmetry. apply (Z.div_unique (- a) b (- c) (c * b - a)); lia.
Qed.

Lemma floor_div_bounds a b :
  0 < b → floor_div a b * b ≤ a < (floor_div a b + 1) * b.
Proof.
  intros Hb. unfold floor_div.
  pose proof (Z.div_mod a b). pose proof (Z.mod_pos_bound a b). lia.
Qed.

Lemma ceil_div_bounds a b :
  0 < b → (ceil_div a b - 1) * b < a ≤ ceil_div a b * b.
Proof.
  intros Hb. unfold ceil_div.
  pose proof (Z.div_mod (- a) b). pose proof (Z.mod_pos_bound (- a) b). lia.
Qed.

(** *** The height *)

Lemma heightInvariant_update d s :
  heightInvariant (updateVisibleItems (withData d s)).
Proof. reflexivity. Qed.

Lemma heightInvariant_updateVisibleItems s :
  heightInvariant s → heightInvariant (updateVisibleItems s).
Proof. done. Qed.

Lemma heightInvariant_exec c s : heightInvariant s → heightInvariant (exec c s).
Proof.
  intros H. destruct c as [d rf|t|h|i nd|it i|i| |h]; cbn [exec].
  - reflexivity.
  - unfold handleScroll. by destruct (_ >? _).
  - done.
  - unfold updateItem. destruct (_ && _); [|done].
    unfold heightInvariant in *. cbn. by rewrite length_insert.
  - reflexivity.
  - unfold removeItem. by destruct (_ && _).
  - reflexivity.
  - reflexivity.
Qed.

Lemma heightInvariant_reachable s : reachable s → heightInvariant s.
Proof.
  induction 1 as [ch h b p s p' Hnew|c s _ IH].
  - unfold new in Hnew. destruct (hasContainer p); [|done].
    by simplify_eq.
  - by apply heightInvariant_exec.
Qed.

(** *** Listeners *)

Lemma removeEventListener_absent type cb ls :
  (type, cb) ∉ ls → removeEventListener type cb ls = ls.
Proof.
  induction ls as [|l ls IH]; [done|]. rewrite not_elem_of_cons.
  intros [Hne Hls]. cbn. rewrite bool_decide_eq_false_2 by congruence.
  f_equal. auto.
Qed.

Lemma addEventListener_fresh type cb ls :
  (type, cb) ∉ ls → addEventListener type cb ls = ls ++ [(type, cb)].
Proof. intros H. unfold addEventListener. by rewrite bool_decide_eq_false_2. Qed.

(** One more renderer constructed and destroyed: its two listeners stay. *)
Lemma cycle_adds_listeners k ch h b :
  snd <$> (destroy <$> new ch h b (pageWithListeners k))
  = Some (pageWithListeners (S k)).
Proof.
  unfold new, pageWithListeners. cbn [hasContainer fmap option_fmap option_map].
  unfold destroy, setupEventListeners.
  cbn [snd hasContainer containerListeners windowListeners functionObjects].
  rewrite !addEventListener_fresh.
  - rewrite !removeEventListener_absent.
    + rewrite seq_S, !fmap_app. cbn [fmap list_fmap].
      do 2 f_equal. lia.
    + rewrite elem_of_app, list_elem_of_singleton, list_elem_of_fmap.
      intros [(i & E & _)|E]; discriminate.
    + rewrite elem_of_app, list_elem_of_singleton, list_elem_of_fmap.
      intros [(i & E & _)|E]; discriminate.
  - rewrite list_elem_of_fmap. intros (i & [= E] & Hi%elem_of_seq). lia.
  - rewrite list_elem_of_fmap. intros (i & [= E] & Hi%elem_of_seq). lia.
Qed.

Lemma cycles_leak n k ch h b :
  cycles n ch h b (pageWithListeners k) = pageWithListeners (k + n).
Proof.
  revert k. induction n as [|n IH]; intros k; cbn [cycles].
  - f_equal. lia.
  - pose proof (cycle_adds_listeners k ch h b) as Hc.
    destruct (new ch h b (pageWithListeners k)) as [sp|]; [|done].
    cbn in Hc. injection Hc as ->. rewrite IH. f_equal. lia.
Qed.

(** *** The claims *)

(** C3.  With a positive item height, [calculateVisibleRange] sets
    [startIndex] to [max (0, floor (scrollTop / itemHeight) - bufferSize)]
    and [endIndex] to [min (len - 1, ceil ((scrollTop + containerHeight) /
    itemHeight) + bufferSize)], [f] and [c] being the floor and the
    ceiling of the two quotients; for 1000 items of height 60 in a
    container of height 600 with a buffer of 5 at offset 1200 the range is
    15 to 35. *)
Theorem visible_range_formula (s : state) (f c : Z) :
  0 < itemHeight s →
  f * itemHeight s ≤ scrollTop s < (f + 1) * itemHeight s →
  (c - 1) * itemHeight s < scrollTop s + containerHeight s ≤ c * itemHeight s →
  let s' := calculateVisibleRange s in
  startIndex s' = 0 `max` (f - bufferSize s)
  ∧ endIndex s' = (Z.of_nat (length (data s)) - 1) `min` (c + bufferSize s)
  ∧ (length (data s) = 1000%nat → itemHeight s = 60 → containerHeight s = 600 →
     bufferSize s = 5 → scrollTop s = 1200 →
     startIndex s' = 15 ∧ endIndex s' = 35).
Proof.
  intros Hh Hf Hc. cbn zeta. cbn [calculateVisibleRange startIndex endIndex].
  rewrite (floor_div_unique _ _ f Hh Hf), (ceil_div_unique _ _ c Hh Hc).
  split_and!; [done|done|].
  intros Hlen Eh Ech Eb Est. rewrite Hlen, Eh, Ech, Eb, Est in *. lia.
Qed.

(** The scenario of the specification: 1000 items of height 60, a
    container of height 600, a buffer of 5, at offset 1200. *)
Lemma visible_range_formula_witness :
  let s := mk 60 5 (replicate 1000 ∅) 1200 600 60000 0 0 None 60000 true [] 0 in
  0 < itemHeight s
  ∧ 20 * itemHeight s ≤ scrollTop s < (20 + 1) * itemHeight s
  ∧ (30 - 1) * itemHeight s < scrollTop s + containerHeight s ≤ 30 * itemHeight s
  ∧ startIndex (calculateVisibleRange s) = 15
  ∧ endIndex (calculateVisibleRange s) = 35.
Proof.
  cbn zeta.
  cbn [itemHeight scrollTop containerHeight].
  assert (0 < 60) as Hh by lia.
  assert (20 * 60 ≤ 1200 < (20 + 1) * 60) as Hf by lia.
  assert ((30 - 1) * 60 < 1200 + 600 ≤ 30 * 60) as Hc by lia.
  split; [exact Hh|]. split; [exact Hf|]. split; [exact Hc|].
  apply (visible_range_formula
           (mk 60 5 (replicate 1000 ∅) 1200 600 60000 0 0 None 60000 true [] 0)
           20 30 Hh Hf Hc); reflexivity.
Defined.

(** C4.  In every state of a renderer, after [setData], [addItem] or
    [removeItem] the total height is the length of the list times the
    item height, and whenever a call leaves the list empty the total
    height is [0]. *)
Theorem total_height_invariant (s : state) :
  reachable s →
  (∀ d rf, heightInvariant (setData d rf s))
  ∧ (∀ item index, heightInvariant (addItem item index s))
  ∧ (∀ index, heightInvariant (removeItem index s))
  ∧ (∀ c, data (exec c s) = [] → totalHeight (exec c s) = 0).
Proof.
  intros Hs%heightInvariant_reachable. split_and!.
  - intros d rf. exact (heightInvariant_exec (SetData d rf) s Hs).
  - intros it i. exact (heightInvariant_exec (AddItem it i) s Hs).
  - intros i. exact (heightInvariant_exec (RemoveItem i) s Hs).
  - intros c Hd. pose proof (heightInvariant_exec c s Hs) as H.
    unfold heightInvariant in H. rewrite H, Hd. reflexivity.
Qed.

(** The renderer as its constructor leaves it, with item height 60. *)
Lemma total_height_invariant_witness :
  let s := mk 60 5 [] 0 600 0 0 0 None 0 true [] 0 in
  reachable s
  ∧ heightInvariant (removeItem 0 (addItem ∅ None s))
  ∧ totalHeight (setData [] None s) = 0.
Proof.
  cbn zeta.
  assert (reachable (mk 60 5 [] 0 600 0 0 0 None 0 true [] 0)) as Hs.
  { apply (reachable_new 600 60 5 emptyPage _ (setupEventListeners emptyPage)).
    reflexivity. }
  split; [exact Hs|]. split.
  - apply (total_height_invariant _ (reachable_exec (AddItem ∅ None) _ Hs)).
  - apply (proj2 (proj2 (proj2 (total_height_invariant _ Hs))) (SetData [] None)).
    reflexivity.
Defined.

(** C8 (counterexample).  A renderer that was scrolled to offset 6000 in a
    list of 1000 items and is then given a list of 10 items computes the
    range 95 to 9 for it: the start lies beyond the last index of a list
    that is not empty. *)
Lemma stale_offset_leaves_the_list :
  let s := exec (SetData (replicate 10 ∅) None)
             (exec (Scroll 6000)
                (exec (SetData (replicate 1000 ∅) None)
                   (mk 60 5 [] 0 600 0 0 0 None 0 true [] 0))) in
  reachable s
  ∧ s = updateVisibleItems s
  ∧ ¬ rangeWithinList (calculateVisibleRange s).
Proof.
  cbn zeta. split_and!.
  - do 3 apply reachable_exec.
    apply (reachable_new 600 60 5 emptyPage _ (setupEventListeners emptyPage)).
    reflexivity.
  - vm_compute. reflexivity.
  - unfold rangeWithinList.
    match goal with
    | |- ¬ match data ?s with _ => _ end =>
        assert (startIndex s = 95) as E1 by (vm_compute; reflexivity);
        assert (endIndex s = 9) as E2 by (vm_compute; reflexivity);
        assert (∃ r l, data s = r :: l) as (r & l & Ed)
          by (eexists _, _; vm_compute; reflexivity);
        rewrite Ed, E1, E2
    end.
    lia.
Qed.

(** C8 (amended).  With a positive item height, a buffer and a container
    height that are not negative and a scroll offset that is not negative,
    [calculateVisibleRange] leaves [0 ≤ startIndex] and [endIndex ≤ len -
    1]; [startIndex ≤ endIndex] holds exactly when the list is not empty
    and [scrollTop < (len + bufferSize) × itemHeight]; so the range lies
    within a list that is not empty whenever [scrollTop < len × itemHeight],
    and it is empty for the empty list. *)
Theorem visible_range_clamped (s : state) :
  0 < itemHeight s → 0 ≤ bufferSize s → 0 ≤ containerHeight s →
  0 ≤ scrollTop s →
  let s' := calculateVisibleRange s in
  let len := Z.of_nat (length (data s)) in
  0 ≤ startIndex s' ∧ endIndex s' ≤ len - 1
  ∧ (startIndex s' ≤ endIndex s'
     ↔ 0 < len ∧ scrollTop s < (len + bufferSize s) * itemHeight s)
  ∧ (scrollTop s < len * itemHeight s → rangeWithinList s')
  ∧ (len = 0 → rangeWithinList s').
Proof.
  intros Hh Hb Hch Hst. cbn zeta.
  unfold rangeWithinList. cbn [calculateVisibleRange startIndex endIndex data].
  pose proof (floor_div_bounds (scrollTop s) (itemHeight s) Hh) as Hf.
  pose proof (ceil_div_bounds (scrollTop s + containerHeight s) (itemHeight s) Hh)
    as Hc.
  set (f := floor_div _ _) in *. set (c := ceil_div _ _) in *.
  set (len := Z.of_nat (length (data s))).
  assert (0 ≤ f) by nia. assert (f ≤ c) by nia.
  assert (f < len + bufferSize s ↔ scrollTop s < (len + bufferSize s) * itemHeight s)
    as Hiff by (split; nia).
  split_and!; [lia|lia| | |].
  - rewrite <- Hiff. lia.
  - intros Hin. assert (f < len) by nia.
    destruct (data s) as [|r l] eqn:Ed; [cbn in len; lia|].
    fold len. lia.
  - intros Hl. destruct (data s) as [|r l] eqn:Ed; [|cbn in len; lia]. lia.
Qed.

(** The scenario of the specification again: the offset lies within the
    list, and so does the range. *)
Lemma visible_range_clamped_witness :
  let s := mk 60 5 (replicate 1000 ∅) 1200 600 60000 0 0 None 60000 true [] 0 in
  0 < itemHeight s ∧ 0 ≤ bufferSize s ∧ 0 ≤ containerHeight s ∧ 0 ≤ scrollTop s
  ∧ rangeWithinList (calculateVisibleRange s).
Proof.
  cbn zeta.
  cbn [itemHeight bufferSize containerHeight scrollTop].
  assert (0 < 60) as Hh by lia.
  assert (0 ≤ 5) as Hb by lia.
  assert (0 ≤ 600) as Hc by lia.
  assert (0 ≤ 1200) as Hs by lia.
  split; [exact Hh|]. split; [exact Hb|]. split; [exact Hc|]. split; [exact Hs|].
  destruct (visible_range_clamped
              (mk 60 5 (replicate 1000 ∅) 1200 600 60000 0 0 None 60000 true [] 0)
              Hh Hb Hc Hs) as (_ & _ & _ & Hin & _).
  apply Hin. vm_compute. reflexivity.
Defined.

(** C9 (the code departs from it).  The claim: [destroy] unregisters the
    scroll listener and the resize listener of the instance, so that
    cycles of construction and destruction leave no listener behind.  The
    code registers two arrow functions and asks to remove two methods:
    after one cycle on a page without listeners both listeners are still
    registered, and after [n] cycles there are [n] of each. *)
Theorem destroy_keeps_the_listeners (n : nat) (ch h b : Z) :
  snd <$> (destroy <$> new ch h b emptyPage)
  = Some (mkPage true [("scroll", ScrollArrow 0)] [("resize", ResizeArrow 1)] 2)
  ∧ length (containerListeners (cycles n ch h b emptyPage)) = n
  ∧ length (windowListeners (cycles n ch h b emptyPage)) = n.
Proof.
  split; [reflexivity|].
  change emptyPage with (pageWithListeners 0). rewrite cycles_leak.
  cbn [pageWithListeners containerListeners windowListeners].
  by rewrite !length_fmap, !length_seq.
Qed.

End ScrollFacts.

(** ** The search *)

Module VoucherFacts.
Import JS JSFacts VoucherManager.

(** *** Substrings *)

Lemma prefix_spec q s : String.prefix q s = true ↔ ∃ post, s = q +:+ post.
Proof.
  revert s. induction q as [|a q IH]; intros s.
  - split; [intros _; by exists s|]. intros _. by destruct s.
  - destruct s as [|b s]; cbn.
    + split; [done|]. by intros [post ?].
    + destruct (Ascii.ascii_dec a b) as [->|Hne].
      * rewrite IH. split; intros [post E]; exists post.
        -- change (String b q +:+ post) with (String b (q +:+ post)).
           by rewrite E.
        -- change (String b q +:+ post) with (String b (q +:+ post)) in E.
           by injection E.
      * split; [done|]. intros [post E].
        change (String a q +:+ post) with (String a (q +:+ post)) in E.
        congruence.
Qed.

(** [includes] is the search for a contiguous substring. *)
Lemma includes_spec s q :
  includes s q = true ↔ ∃ pre post, s = pre +:+ q +:+ post.
Proof.
  split.
  - induction s as [|c s IH]; cbn [includes]; rewrite orb_true_iff.
    + intros [H|H]; [|done]. apply prefix_spec in H as [post E].
      by exists "", post.
    + intros [H|H].
      * apply prefix_spec in H as [post E]. by exists "", post.
      * destruct (IH H) as (pre & post & ->). by exists (String c pre), post.
  - intros (pre & post & ->). induction pre as [|c pre IH].
    + change ("" +:+ q +:+ post) with (q +:+ post).
      assert (String.prefix q (q +:+ post) = true) as H
        by (apply prefix_spec; by exists post).
      destruct (q +:+ post); cbn [includes]; by rewrite H.
    + change (String c pre +:+ q +:+ post)
        with (String c (pre +:+ q +:+ post)).
      cbn [includes]. rewrite IH. apply orb_true_r.
Qed.

(** *** The loop *)

(** The loop started with fewer results than the ceiling: it returns the
    first [ceiling] of the results it had and the matches of the
    collection, having tested a prefix of the collection that is the
    shortest one to hold them. *)
Lemma scan_spec q vs acc n :
  (length acc < ceiling)%nat →
  ∃ k : nat,
    (scan q vs acc n).2 = (n + k)%nat
    ∧ (k ≤ length vs)%nat
    ∧ (scan q vs acc n).1 = acc ++ matching q (take k vs)
    ∧ (scan q vs acc n).1 = take ceiling (acc ++ matching q vs)
    ∧ (∀ j, (j < k)%nat → (length (acc ++ matching q (take j vs)) < ceiling)%nat)
    ∧ ((length (acc ++ matching q vs) < ceiling)%nat → k = length vs)
    ∧ ((ceiling < length (acc ++ matching q vs))%nat → (k < length vs)%nat).
Proof.
  unfold matching. revert acc n.
  induction vs as [|v vs IH]; intros acc n Hacc.
  - exists 0%nat. cbn [scan fst snd take length]. rewrite ?filter_nil, ?app_nil_r.
    split_and!.
    + lia.
    + lia.
    + done.
    + rewrite take_ge; [done|lia].
    + intros j Hj. lia.
    + done.
    + lia.
  - cbn [scan].
    pose proof (length_filter (λ v0, matches q v0 = true) vs) as Hf.
    destruct (matches q v) eqn:Hm.
    + assert (∀ l, filter (λ v0, matches q v0 = true) (v :: l)
                   = v :: filter (λ v0, matches q v0 = true) l) as Hcons.
      { intros l. by apply filter_cons_True. }
      destruct (Nat.leb_spec ceiling (length (acc ++ [v]))) as [Hc|Hc];
        rewrite length_app in Hc; cbn [length] in Hc.
      * exists 1%nat. cbn [fst snd take]. rewrite !Hcons, ?filter_nil.
        split_and!.
        -- lia.
        -- cbn [length]. lia.
        -- done.
        -- rewrite (cons_middle v acc (filter _ vs)), app_assoc.
           rewrite take_app_le by (rewrite length_app; cbn [length]; lia).
           rewrite take_ge; [done|rewrite length_app; cbn [length]; lia].
        -- intros j Hj. assert (j = 0)%nat as -> by lia.
           cbn [take]. rewrite ?filter_nil, ?app_nil_r. lia.
        -- rewrite length_app. cbn [length]. lia.
        -- rewrite length_app. cbn [length]. intros Hlt.
           destruct vs as [|v' vs]; cbn [length] in *; [|lia].
           rewrite ?filter_nil in Hlt. cbn [length] in Hlt. lia.
      * assert (length (acc ++ [v]) < ceiling)%nat as Hc'
          by (rewrite length_app; cbn [length]; lia).
        destruct (IH (acc ++ [v]) (S n) Hc')
          as (k & E2 & Hk & E1 & Et & Hmin & Hall & Hmore).
        exists (S k). cbn [take]. rewrite !Hcons.
        rewrite (cons_middle v acc (filter _ (take k vs))), app_assoc.
        rewrite (cons_middle v acc (filter _ vs)), app_assoc.
        split_and!.
        -- lia.
        -- cbn [length]. lia.
        -- done.
        -- done.
        -- intros [|j] Hj.
           ++ cbn [take]. rewrite ?filter_nil, ?app_nil_r. lia.
           ++ cbn [take].
              rewrite Hcons, (cons_middle v acc (filter _ (take j vs))), app_assoc.
              apply Hmin. lia.
        -- intros Hlt. cbn [length]. f_equal. auto.
        -- intros Hlt. cbn [length]. apply Hmore in Hlt. lia.
    + assert (∀ l, filter (λ v0, matches q v0 = true) (v :: l)
                   = filter (λ v0, matches q v0 = true) l) as Hcons.
      { intros l. apply filter_cons_False. congruence. }
      destruct (IH acc (S n) Hacc)
        as (k & E2 & Hk & E1 & Et & Hmin & Hall & Hmore).
      exists (S k). cbn [take]. rewrite !Hcons.
      split_and!.
      * lia.
      * cbn [length]. lia.
      * done.
      * done.
      * intros [|j] Hj.
        -- cbn [take]. rewrite ?filter_nil, ?app_nil_r. lia.
        -- cbn [take]. rewrite Hcons. apply Hmin. lia.
      * intros Hlt. cbn [length]. f_equal. auto.
      * intros Hlt. cbn [length]. apply Hmore in Hlt. lia.
Qed.

(** *** [performVoucherSearch] *)

(** Unfolds the setters and the projections of the state. *)
Ltac fields :=
  cbn [currentUserId searchDebounceTimer allVouchersCache searchResults
       isSearchMode searchInput listening messageBox tableRows dailyRenders
       clock timers nextHandle remote errors searches
       set_currentUserId set_searchDebounceTimer set_allVouchersCache
       set_searchResults set_isSearchMode set_searchInput set_listening
       set_messageBox set_tableRows set_dailyRenders set_clock set_timers
       set_nextHandle set_errors set_searches
       showMessage displaySearchResults renderDailyVouchers fst snd] in *.

(** What a call leaves alone, and what it records. *)
Lemma performVoucherSearch_frame s :
  let s' := performVoucherSearch s in
  clock s' = clock s ∧ timers s' = timers s ∧ nextHandle s' = nextHandle s
  ∧ searchDebounceTimer s' = searchDebounceTimer s
  ∧ searchInput s' = searchInput s ∧ listening s' = listening s
  ∧ currentUserId s' = currentUserId s
  ∧ dailyRenders s' = dailyRenders s
  ∧ searches s' = searches s ++ [(clock s, currentQuery s)].
Proof.
  cbn zeta. unfold performVoucherSearch, loadAllVouchersCache.
  destruct s as [uid tmr cch res mode inp lst msg rows dr clk tms nh rem errs srch].
  unfold currentQuery, noUser. fields.
  destruct (_ || _); fields; [done|].
  destruct cch as [c|]; fields.
  - destruct (_ =? _)%nat; fields; done.
  - destruct rem as [docs|]; fields; destruct (_ =? _)%nat; fields; done.
Qed.

(** The collection does not depend on the search log. *)
Lemma collection_set_searches l s : collection (set_searches l s) = collection s.
Proof.
  unfold collection, loadAllVouchersCache. destruct s. fields.
  destruct allVouchersCache0; fields; [done|]. by destruct remote0.
Qed.

(** A search that is not turned away: the results are those of the loop
    over the collection, and the mode, the message and the table follow
    from their number. *)
Lemma performVoucherSearch_run s :
  currentQuery s ≠ "" → noUser s = false →
  let results := (scan (toLowerCase (currentQuery s)) (collection s) [] 0).1 in
  let s' := performVoucherSearch s in
  searchResults s' = results
  ∧ isSearchMode s' = negb (length results =? 0)%nat
  ∧ messageBox s'
    = Some (if (length results =? 0)%nat then (NotFound (currentQuery s), true)
            else if (100 <=? length results)%nat then (FirstHundred, false)
            else (Found (length results), false))
  ∧ tableRows s' = (if (length results =? 0)%nat then tableRows s else Some results).
Proof.
  intros Hq Hu. cbn zeta. unfold performVoucherSearch.
  set (s0 := set_searches _ s).
  assert (currentQuery s0 = currentQuery s) as Eq by (by destruct s).
  assert (noUser s0 = noUser s) as Eu by (by destruct s).
  assert (collection s0 = collection s) as Ec by apply collection_set_searches.
  assert (tableRows (loadAllVouchersCache s0) = tableRows s) as Et.
  { unfold loadAllVouchersCache. subst s0. destruct s. fields.
    destruct allVouchersCache0; fields; [done|]. by destruct remote0. }
  rewrite Eu, Hu. destruct (String.eqb_spec (currentQuery s) ""); [done|].
  cbn [orb]. unfold collection in Ec. fields. rewrite Ec.
  fold (collection s).
  set (results := (scan _ _ _ _).1).
  destruct (length results =? 0)%nat; fields; [done|].
  by destruct (100 <=? length results)%nat.
Qed.

(** *** Time-outs and events *)

Lemma set_timers_id s : set_timers (timers s) s = s.
Proof. by destruct s. Qed.

(** What the time-outs that fire leave alone. *)
Lemma fire_frame (firing : list (positive * Z)) t s :
  (∀ tm, tm ∈ firing → tm.2 ≤ t) → clock s ≤ t →
  let s' := foldl (λ st (tm : positive * Z),
                     performVoucherSearch (set_clock (Z.max (clock st) tm.2) st))
                  s firing in
  clock s' ≤ t ∧ timers s' = timers s ∧ nextHandle s' = nextHandle s
  ∧ searchDebounceTimer s' = searchDebounceTimer s
  ∧ searchInput s' = searchInput s ∧ listening s' = listening s
  ∧ currentUserId s' = currentUserId s.
Proof.
  cbn zeta. revert s. induction firing as [|tm firing IH]; intros s Hdue Hclk.
  - done.
  - cbn [foldl].
    destruct (performVoucherSearch_frame (set_clock (Z.max (clock s) tm.2) s))
      as (Ec & Et & En & Ed & Ei & El & Eu & _).
    assert (tm.2 ≤ t) by (apply Hdue; left).
    destruct (IH (performVoucherSearch (set_clock (Z.max (clock s) tm.2) s)))
      as (Hc & Ht & Hn & Hd & Hi & Hl & Hu).
    { intros tm' ?. apply Hdue. by right. }
    { rewrite Ec. destruct s. fields. lia. }
    rewrite Ht, Hn, Hd, Hi, Hl, Hu, Et, En, Ed, Ei, El, Eu.
    destruct s. fields. done.
Qed.

(** Time passing: the time-outs that are not due stay, the instance and
    the input are as before, and the time is the new one. *)
Lemma advance_frame t s :
  clock s ≤ t →
  let s' := advance t s in
  clock s' = t
  ∧ timers s' = filter (λ tm : positive * Z, ¬ tm.2 ≤ t) (timers s)
  ∧ nextHandle s' = nextHandle s
  ∧ searchDebounceTimer s' = searchDebounceTimer s
  ∧ searchInput s' = searchInput s ∧ listening s' = listening s
  ∧ currentUserId s' = currentUserId s.
Proof.
  intros Hclk. cbn zeta. unfold advance.
  set (firing := sort _ _). set (s1 := set_timers _ s).
  destruct (fire_frame firing t s1) as (Hc & Ht & Hn & Hd & Hi & Hl & Hu).
  { intros tm Htm. subst firing.
    rewrite (sort_perm snd) in Htm. by apply list_elem_of_filter in Htm as [? _]. }
  { subst s1. by destruct s. }
  set (s2 := foldl _ s1 firing) in *.
  destruct s2. fields. subst. subst s1. destruct s. fields.
  split_and!; try done. lia.
Qed.

(** Nothing is due: only the time changes. *)
Lemma advance_idle t s :
  clock s ≤ t → (∀ tm, tm ∈ timers s → t < tm.2) →
  advance t s = set_clock t s.
Proof.
  intros Hclk Hdue. unfold advance.
  rewrite (filter_none (λ tm : positive * Z, tm.2 ≤ t)).
  2:{ intros tm Htm. apply Hdue in Htm. lia. }
  rewrite (filter_all (λ tm : positive * Z, ¬ tm.2 ≤ t)).
  2:{ intros tm Htm. apply Hdue in Htm. lia. }
  cbn [sort foldl]. rewrite set_timers_id.
  destruct s. fields. f_equal. lia.
Qed.

(** The one pending time-out fires: the search runs at its due time. *)
Lemma advance_fires t h d s :
  timers s = [(h, d)] → clock s ≤ d → d ≤ t →
  timers (advance t s) = []
  ∧ searches (advance t s) = searches s ++ [(d, currentQuery s)].
Proof.
  intros Htm Hclk Hd. unfold advance. rewrite Htm.
  rewrite (filter_all (λ tm : positive * Z, tm.2 ≤ t)).
  2:{ intros tm ->%list_elem_of_singleton. done. }
  rewrite (filter_none (λ tm : positive * Z, ¬ tm.2 ≤ t)).
  2:{ intros tm ->%list_elem_of_singleton. cbn. lia. }
  cbn [sort sort_insert foldl snd].
  destruct (performVoucherSearch_frame
              (set_clock (Z.max (clock (set_timers [] s)) d) (set_timers [] s)))
    as (_ & Et & _ & _ & _ & _ & _ & _ & Es).
  set (s2 := performVoucherSearch _) in *.
  destruct s2. fields. subst. destruct s. fields.
  unfold currentQuery. fields. split; [done|]. do 3 f_equal. lia.
Qed.

(** With every pending time-out owned, clearing the recorded one leaves
    none. *)
Lemma owned_clear s :
  timersOwned s →
  timers (match searchDebounceTimer s with
          | Some h => clearTimeout h s
          | None => s
          end) = [].
Proof.
  intros Hown. destruct (searchDebounceTimer s) as [h|] eqn:E.
  - unfold clearTimeout. destruct s. fields. apply filter_none.
    intros tm Htm. apply Hown in Htm. fields. naive_solver.
  - destruct (timers s) as [|tm l] eqn:Et; [done|].
    assert (None = Some tm.1); [|done].
    rewrite <- E. apply Hown. rewrite Et. left.
Qed.

Lemma timersOwned_advance t s : clock s ≤ t → timersOwned s → timersOwned (advance t s).
Proof.
  intros Hclk Hown tm. destruct (advance_frame t s Hclk) as (_ & -> & _ & -> & _).
  intros [_ Htm]%list_elem_of_filter. by apply Hown.
Qed.

(** A keystroke that leaves more than white space: the pending time-out is
    replaced by one that is due [debounceDelay] later. *)
Lemma handleSearchInput_arms v s :
  timersOwned s → trim v ≠ "" →
  let s' := handleSearchInput v s in
  timers s' = [(nextHandle s, clock s + debounceDelay)]
  ∧ searchDebounceTimer s' = Some (nextHandle s)
  ∧ clock s' = clock s ∧ searchInput s' = searchInput s
  ∧ listening s' = listening s ∧ searches s' = searches s.
Proof.
  intros Hown Hv. cbn zeta. unfold handleSearchInput.
  destruct (String.eqb_spec (trim v) ""); [done|].
  pose proof (owned_clear s Hown) as Hclr.
  destruct (searchDebounceTimer s) as [h|];
    unfold setTimeout, clearTimeout in *; destruct s; fields;
    rewrite ?Hclr; done.
Qed.

(** A keystroke that leaves the input empty: no time-out stays pending,
    no search runs, and the unfiltered list is shown again. *)
Lemma handleSearchInput_clears v s :
  timersOwned s → trim v = "" →
  let s' := handleSearchInput v s in
  timers s' = [] ∧ isSearchMode s' = false ∧ searchResults s' = []
  ∧ dailyRenders s' = S (dailyRenders s) ∧ searches s' = searches s
  ∧ clock s' = clock s.
Proof.
  intros Hown Hv. cbn zeta. unfold handleSearchInput. rewrite Hv.
  cbn [String.eqb].
  pose proof (owned_clear s Hown) as Hclr.
  destruct (searchDebounceTimer s) as [h|];
    unfold clearTimeout in *; destruct s; fields; done.
Qed.





(** The two conditions on the state are kept by every event, and hold
    once the manager is initialized in a document that has the input. *)
Lemma timersOwned_dispatch te s :
  clock s ≤ te.1 → timersOwned s → timersOwned (dispatch te s).
Proof.
  destruct te as [t e]. cbn [fst]. intros Hclk Hown.
  pose proof (timersOwned_advance t s Hclk Hown) as Hown'.
  unfold dispatch. cbn [fst snd]. set (s0 := advance t s) in *.
  clearbody s0. clear s Hclk Hown.
  assert (∀ s1, timers s1 = [] → timersOwned s1) as Hnone.
  { intros s1 E tm. rewrite E. by intros ?%elem_of_nil. }
  assert (∀ v, timersOwned (set_searchInput (Some v) s0)) as Hset.
  { intros v. by destruct s0. }
  destruct e as [v|k|v]; cbn [handle].
  - destruct (searchInput s0); [|done].
    destruct (listening (set_searchInput (Some v) s0)); [|apply Hset].
    destruct (decide (trim v = "")) as [Hv|Hv].
    + apply Hnone. by apply handleSearchInput_clears.
    + destruct (handleSearchInput_arms v _ (Hset v) Hv) as (Ht & Hd & _).
      intros tm. rewrite Ht, Hd. by intros ->%list_elem_of_singleton.
  - destruct (listening s0); [|done]. unfold handleKeypress.
    destruct (String.eqb k "Enter"); [|done].
    apply Hnone. pose proof (owned_clear s0 Hown') as Hclr.
    destruct (performVoucherSearch_frame
                (match searchDebounceTimer s0 with
                 | Some h => clearTimeout h s0
                 | None => s0
                 end)) as (_ & Et & _).
    by rewrite Et.
  - destruct (searchInput s0); [apply Hset|done].
Qed.

Lemma timersOwned_initialize userId input now docs :
  timersOwned (initialize userId (new input now docs)).
Proof. intros tm Htm. inversion Htm. Qed.

Lemma attached_initialize userId v now docs :
  attached (initialize userId (new (Some v) now docs)).
Proof. split; [reflexivity|by eexists]. Qed.


(** A script that changes the value while the time-out is pending: the
    search that follows reads the new value. *)
Lemma assign_before_fire t v log ta w T s :
  armed t v log s → t ≤ ta < t + debounceDelay → t + debounceDelay ≤ T →
  searches (advance T (dispatch (ta, Assign w) s))
  = log ++ [(t + debounceDelay, trim w)].
Proof.
  intros Harm Hta HT.
  destruct Harm as ((h & Htm & Hd) & Hc & Hi & Hl & Hs).
  assert (advance ta s = set_clock ta s) as Eadv.
  { apply advance_idle; [lia|]. rewrite Htm.
    intros tm ->%list_elem_of_singleton. cbn. lia. }
  unfold dispatch. cbn [fst snd handle]. rewrite Eadv.
  assert (searchInput (set_clock ta s) = Some v) as -> by (by destruct s).
  destruct (advance_fires T h (t + debounceDelay)
              (set_searchInput (Some w) (set_clock ta s))) as [_ E].
  { by destruct s. }
  { destruct s. fields. lia. }
  { done. }
  rewrite E. destruct s. fields. unfold currentQuery. fields. by subst.
Qed.

(** *** The claims *)

(** C5.  A search that is not turned away scans the collection once, in
    its order, with the test that the lower-cased query occurs in the
    lower-cased voucher number; its results are the first [ceiling]
    matches, found in the shortest prefix of the collection that holds
    them.  With more than [ceiling] matches there are exactly [ceiling]
    results, the message says that only the first hundred are shown and
    the scan stops before the end; with fewer, the results are all the
    matches, the whole collection is scanned and the message is the
    count (or that nothing was found). *)
Theorem search_first_hundred (s : state) :
  currentQuery s ≠ "" → noUser s = false →
  let q := toLowerCase (currentQuery s) in
  let all := matching q (collection s) in
  let examined := (scan q (collection s) [] 0).2 in
  let s' := performVoucherSearch s in
  (∀ v, matches q v = true
        ↔ ∃ pre post,
            toLowerCase (toString (or_else (field v "voucherNumber") (JStr "")))
            = pre +:+ q +:+ post)
  ∧ searchResults s' = take ceiling all
  ∧ searchResults s' = matching q (take examined (collection s))
  ∧ (∀ j, (j < examined)%nat →
          (length (matching q (take j (collection s))) < ceiling)%nat)
  ∧ ((ceiling < length all)%nat →
     length (searchResults s') = ceiling
     ∧ messageBox s' = Some (FirstHundred, false)
     ∧ (examined < length (collection s))%nat)
  ∧ ((length all < ceiling)%nat →
     searchResults s' = all
     ∧ examined = length (collection s)
     ∧ messageBox s'
       = Some (if (length all =? 0)%nat then (NotFound (currentQuery s), true)
               else (Found (length all), false))).
Proof.
  intros Hq Hu. cbn zeta.
  destruct (performVoucherSearch_run s Hq Hu) as (Er & _ & Em & _).
  destruct (scan_spec (toLowerCase (currentQuery s)) (collection s) [] 0)
    as (k & E2 & Hk & E1 & Et & Hmin & Hall & Hmore);
    [unfold ceiling; cbn; lia|].
  cbn [app] in *. rewrite Nat.add_0_l in E2.
  split_and!.
  - intros v. unfold matches. apply includes_spec.
  - by rewrite Er, Et.
  - by rewrite Er, E1, E2.
  - intros j Hj. apply Hmin. by rewrite <- E2.
  - intros Hmany. split_and!.
    + rewrite Er, Et, length_take. lia.
    + rewrite Em, Et, length_take.
      replace (ceiling `min` _)%nat with ceiling by lia. done.
    + rewrite E2. auto.
  - intros Hfew. split_and!.
    + rewrite Er, Et. apply take_ge. lia.
    + rewrite E2. auto.
    + rewrite Em, Et, take_ge by lia.
      set (n := length (matching _ _)) in *.
      destruct (Nat.eqb_spec n 0); [done|].
      destruct (Nat.leb_spec 100 n); [|done].
      unfold ceiling in Hfew. lia.
Qed.

(** C10.  A search for a query that is not empty and that no voucher of
    the collection matches leaves search mode off and the results empty;
    the table is not touched, the message says that nothing was found, and
    [renderDailyVouchers] is not held back by its guard. *)
Theorem search_without_match (s : state) :
  currentQuery s ≠ "" → noUser s = false →
  matching (toLowerCase (currentQuery s)) (collection s) = [] →
  let s' := performVoucherSearch s in
  isSearchMode s' = false ∧ searchResults s' = []
  ∧ tableRows s' = tableRows s
  ∧ messageBox s' = Some (NotFound (currentQuery s), true)
  ∧ dailyRenders (renderDailyVouchers s') = S (dailyRenders s).
Proof.
  intros Hq Hu Hnone. cbn zeta.
  destruct (performVoucherSearch_run s Hq Hu) as (Er & Emode & Em & Etab).
  destruct (scan_spec (toLowerCase (currentQuery s)) (collection s) [] 0)
    as (k & _ & _ & _ & Et & _); [unfold ceiling; cbn; lia|].
  cbn [app] in Et. rewrite Hnone, take_nil in Et.
  rewrite Et in *. cbn in Emode, Em, Etab.
  destruct (performVoucherSearch_frame s) as (_ & _ & _ & _ & _ & _ & _ & Ed & _).
  split_and!; try done.
  unfold renderDailyVouchers. rewrite Emode.
  set (s' := performVoucherSearch s) in *. destruct s'. fields. congruence.
Qed.


(** A signed-in manager whose cache holds three vouchers, with [" Ab "]
    typed in the search input. *)
Lemma search_first_hundred_witness :
  let v1 : record := {[ "voucherNumber" := JStr "xAB-1" ]} in
  let v2 : record := {[ "voucherNumber" := JNum 77 ]} in
  let v3 : record := {[ "customerName" := JStr "ab" ]} in
  let s := mk (Some "u") None (Some [v1; v2; v3]) [] false (Some " Ab ") true
              None None 0 0 [] 1 None [] [] in
  currentQuery s ≠ "" ∧ noUser s = false
  ∧ searchResults (performVoucherSearch s) = [v1]
  ∧ messageBox (performVoucherSearch s) = Some (Found 1, false).
Proof.
  cbn zeta.
  set (s := mk _ _ _ _ _ _ _ _ _ _ _ _ _ _ _ _).
  assert (currentQuery s ≠ "") as Hq by (vm_compute; discriminate).
  assert (noUser s = false) as Hu by reflexivity.
  split; [exact Hq|]. split; [exact Hu|].
  destruct (search_first_hundred s Hq Hu) as (_ & Er & _ & _ & _ & Hfew).
  split.
  - rewrite Er. vm_compute. reflexivity.
  - destruct Hfew as (_ & _ & Em); [vm_compute; lia|].
    rewrite Em. vm_compute. reflexivity.
Defined.

(** The same manager with ["zz"] typed, which no voucher number holds. *)
Lemma search_without_match_witness :
  let v1 : record := {[ "voucherNumber" := JStr "xAB-1" ]} in
  let v2 : record := {[ "voucherNumber" := JNum 77 ]} in
  let s := mk (Some "u") None (Some [v1; v2]) [v1] true (Some "zz") true
              None (Some [v1]) 0 0 [] 1 None [] [] in
  currentQuery s ≠ "" ∧ noUser s = false
  ∧ matching (toLowerCase (currentQuery s)) (collection s) = []
  ∧ isSearchMode (performVoucherSearch s) = false
  ∧ searchResults (performVoucherSearch s) = [].
Proof.
  cbn zeta.
  set (s := mk _ _ _ _ _ _ _ _ _ _ _ _ _ _ _ _).
  assert (currentQuery s ≠ "") as Hq by (vm_compute; discriminate).
  assert (noUser s = false) as Hu by reflexivity.
  assert (matching (toLowerCase (currentQuery s)) (collection s) = []) as Hn
    by (vm_compute; reflexivity).
  split; [exact Hq|]. split; [exact Hu|]. split; [exact Hn|].
  destruct (search_without_match s Hq Hu Hn) as (Hm & Hr & _).
  split; [exact Hm|exact Hr].
Defined.


End VoucherFacts.

(** ** The cache: the other methods *)

Module CacheMore.
Import JS JSFacts CacheManager CacheFacts.

(** *** Lookups in filtered maps *)

Lemma map_get_filter_keys {V} (ks : list string) k (m : list (string * V)) :
  map_get k (filter (λ kv, kv.1 ∉ ks) m)
  = if decide (k ∈ ks) then None else map_get k m.
Proof.
  induction m as [|[k' v] m IH].
  { rewrite filter_nil. destruct (decide (k ∈ ks)); reflexivity. }
  rewrite filter_cons. cbn [fst].
  destruct (decide (k' ∉ ks)) as [Hk'|Hk']; cbn [map_get];
    destruct (String.eqb_spec k k') as [->|Hne].
  - by rewrite decide_False.
  - done.
  - rewrite IH. apply dec_stable in Hk'. by rewrite !decide_True.
  - done.
Qed.

Lemma map_get_delete_eq {V} k (m : list (string * V)) :
  NoDup m.*1 → map_get k (map_delete k m) = None.
Proof.
  intros Hn. rewrite map_delete_filter by done.
  pose proof (map_get_filter_keys [k] k m) as E.
  rewrite decide_True in E by left. rewrite <- E.
  f_equal. apply list_filter_iff. intros [k' v]. cbn.
  rewrite list_elem_of_singleton. done.
Qed.

Lemma map_delete_idemp {V} k (m : list (string * V)) :
  NoDup m.*1 → map_delete k (map_delete k m) = map_delete k m.
Proof.
  intros Hn.
  rewrite (map_delete_filter k (map_delete k m)).
  - rewrite map_delete_filter by done. rewrite list_filter_filter.
    apply list_filter_iff. intros ?. tauto.
  - rewrite map_delete_filter by done. by apply filter_keys_NoDup.
Qed.

(** *** [cleanup] and [set] as deletions *)

Lemma cleanup_deletes now s :
  ∃ ks : list string, cleanup now s = foldl (λ st k, delete k st) s ks.
Proof.
  unfold cleanup. set (s1 := foldl _ s (expiredKeys now s)).
  destruct (map_size (cache s1) >? maxCacheSize s1).
  - eexists (expiredKeys now s ++ _.*1).
    rewrite foldl_app. fold s1.
    by rewrite (foldl_fmap (λ st k, delete k st) s1 _ fst).
  - by exists (expiredKeys now s).
Qed.

(** The maps after a [set]: the written maps without some keys; and the
    mirrored entry, when the write succeeds. *)
Lemma set_maps_filtered t n ok k d x s :
  wf s →
  ∃ ks : list string,
    cache (set t n ok k d x s) = filter (λ kv, kv.1 ∉ ks) (map_set k d (cache s))
    ∧ cacheTimestamps (set t n ok k d x s)
      = filter (λ kt, kt.1 ∉ ks) (map_set k t (cacheTimestamps s)).
Proof.
  intros Hwf. destruct (set_maps t n ok k d x s) as (-> & -> & _).
  set (s1 := mk _ _ _ _).
  assert (wf s1) as Hwf1 by by apply wf_write.
  destruct (map_size (cache s1) >? maxCacheSize s1).
  - destruct (cleanup_deletes n s1) as [ks ->].
    destruct (delete_keys ks s1 Hwf1) as (Ht & Hc & _).
    exists ks. by rewrite Ht, Hc.
  - exists []. split; symmetry; apply filter_all; intros ? _; apply not_elem_of_nil.
Qed.

Lemma set_mirrors t n k d x s :
  localStorage (set t n true k d x s) !! storageKey k = Some (d, t).
Proof. unfold set, saveToStorage. cbn. apply lookup_insert_eq. Qed.

(** *** The properties *)

Lemma get_set_mirrored t n k d x now s :
  wf s →
  (get now k (set t n true k d x s)).1
  = if now - t >? cacheExpiry then JNull else d.
Proof.
  intros Hwf.
  destruct (set_maps_filtered t n true k d x s Hwf) as (ks & Hc & Ht).
  pose proof (set_mirrors t n k d x s) as Hls.
  set (s' := set t n true k d x s) in *.
  assert ((loadFromStorage now k s').1
          = if now - t >? cacheExpiry then JNull else d) as Hload.
  { unfold loadFromStorage. rewrite Hls. by destruct (now - t >? cacheExpiry). }
  unfold get. rewrite Ht, map_get_filter_keys.
  destruct (decide (k ∈ ks)); [done|].
  rewrite map_get_set_eq. destruct (t =? 0); [done|].
  destruct (now - t >? cacheExpiry); [done|].
  cbn [fst]. rewrite Hc, map_get_filter_keys, decide_False by done.
  by rewrite map_get_set_eq.
Qed.

(** X1.  A [set] whose write to [localStorage] succeeds, followed by a [get]
    of the same key: the payload is returned as long as the entry is not
    older than [cacheExpiry], and [null] after that, also when the clean-up
    of the [set] has evicted the key from memory. *)
Theorem get_after_mirrored_set t n k d x now s :
  wf s →
  (get now k (set t n true k d x s)).1
  = if now - t >? cacheExpiry then JNull else d.
Proof. apply get_set_mirrored. Qed.

(** A cache that keeps nothing in memory ([maxCacheSize = 0]): the entry
    is served from its mirror. *)
Lemma get_after_mirrored_set_witness :
  wf (mk [] [] 0 ∅)
  ∧ cache (set 7 7 true "v" (JStr "X") 0 (mk [] [] 0 ∅)) = []
  ∧ (get 9 "v" (set 7 7 true "v" (JStr "X") 0 (mk [] [] 0 ∅))).1 = JStr "X".
Proof.
  assert (wf (mk [] [] 0 ∅)) as Hwf by (split; [reflexivity|apply NoDup_nil_2]).
  split; [exact Hwf|]. split; [vm_compute; reflexivity|].
  rewrite (get_after_mirrored_set 7 7 "v" (JStr "X") 0 9 _ Hwf).
  reflexivity.
Defined.

(** X2.  [delete] is idempotent, and after it the key is a miss for [get]
    and for [has], whatever the time. *)
Theorem delete_then_miss k now s :
  wf s →
  delete k (delete k s) = delete k s
  ∧ get now k (delete k s) = (JNull, delete k s)
  ∧ has now k (delete k s) = (false, delete k s).
Proof.
  intros [Hk Hn].
  assert (NoDup (cache s).*1) as Hn' by by rewrite Hk.
  assert (loadFromStorage now k (delete k s) = (JNull, delete k s)) as Hload.
  { unfold loadFromStorage, delete. cbn [localStorage].
    by rewrite lookup_delete_eq. }
  split_and!.
  - unfold delete. cbn [cache cacheTimestamps maxCacheSize localStorage].
    rewrite !map_delete_idemp by done. by rewrite delete_delete_eq.
  - unfold get. cbn [delete cacheTimestamps].
    by rewrite map_get_delete_eq.
  - unfold has. cbn [delete cacheTimestamps].
    rewrite map_get_delete_eq by done. by rewrite Hload.
Qed.

Lemma delete_then_miss_witness :
  wf (set 1 1 true "v" (JStr "X") 0 (new ∅))
  ∧ (get 2 "v" (delete "v" (set 1 1 true "v" (JStr "X") 0 (new ∅)))).1 = JNull.
Proof.
  assert (wf (set 1 1 true "v" (JStr "X") 0 (new ∅))) as Hwf.
  { split; [reflexivity|]. vm_compute. apply NoDup_singleton. }
  split; [exact Hwf|].
  destruct (delete_then_miss "v" 2 _ Hwf) as (_ & -> & _). reflexivity.
Defined.

Lemma storageKey_prefix k : String.prefix "cache_" (storageKey k) = true.
Proof. unfold storageKey. cbn. by destruct k. Qed.

(** X3.  [clear] empties the two maps and removes from [localStorage]
    exactly the entries whose key starts with [cache_]: afterwards every
    [get] is a miss, and what else the page keeps in [localStorage] is as
    before. *)
Theorem clear_removes_only_cache_entries now k s :
  cache (clear s) = [] ∧ cacheTimestamps (clear s) = []
  ∧ get now k (clear s) = (JNull, clear s)
  ∧ (∀ k', localStorage (clear s) !! k'
           = if String.prefix "cache_" k' then None else localStorage s !! k').
Proof.
  assert (∀ k', localStorage (clear s) !! k'
                = if String.prefix "cache_" k' then None else localStorage s !! k')
    as Hls.
  { intros k'. unfold clear. cbn [localStorage].
    destruct (String.prefix "cache_" k') eqn:Hp.
    - apply map_lookup_filter_None. right. intros x _. cbn. congruence.
    - destruct (localStorage s !! k') as [x|] eqn:E.
      + by apply map_lookup_filter_Some.
      + apply map_lookup_filter_None. by left. }
  split_and!; [done|done| |done].
  unfold get, loadFromStorage. cbn [clear cacheTimestamps map_get].
  change (localStorage (mk [] [] (maxCacheSize s) _)) with (localStorage (clear s)).
  by rewrite Hls, storageKey_prefix.
Qed.

(** X4.  An entry that is in memory and expired: [has] answers [false] and
    leaves the entry where it is, [get] answers [null] and deletes it from
    memory and from [localStorage]. *)
Theorem expired_entry_has_keeps_get_deletes now k t s :
  map_get k (cacheTimestamps s) = Some t → t ≠ 0 → now - t > cacheExpiry →
  has now k s = (false, s) ∧ get now k s = (JNull, delete k s).
Proof.
  intros Ht Ht0 Hexp. unfold has, get. rewrite Ht.
  destruct (Z.eqb_spec t 0); [done|].
  destruct (Z.leb_spec (now - t) cacheExpiry); [lia|].
  destruct (Z.gtb_spec (now - t) cacheExpiry); [done|lia].
Qed.

Lemma expired_entry_has_keeps_get_deletes_witness :
  let s := set 1 1 true "v" (JStr "X") 0 (new ∅) in
  map_get "v" (cacheTimestamps s) = Some 1 ∧ 1 ≠ 0 ∧ 300002 - 1 > cacheExpiry
  ∧ has 300002 "v" s = (false, s) ∧ (get 300002 "v" s).1 = JNull.
Proof.
  cbn zeta.
  assert (map_get "v" (cacheTimestamps (set 1 1 true "v" (JStr "X") 0 (new ∅)))
          = Some 1) as Ht by reflexivity.
  assert (1 ≠ 0) as Ht0 by lia.
  assert (300002 - 1 > cacheExpiry) as Hexp by (vm_compute; reflexivity).
  split; [exact Ht|]. split; [exact Ht0|]. split; [exact Hexp|].
  destruct (expired_entry_has_keeps_get_deletes 300002 "v" 1 _ Ht Ht0 Hexp)
    as [Hh Hg].
  split; [exact Hh|]. by rewrite Hg.
Defined.

(** X5.  An entry written by [set] and read by a new instance over the same
    [localStorage] (a reload of the page): it is served, and put back in
    memory under its first time stamp, as long as it is not older than
    [cacheExpiry]; after that it is a miss and its mirror is removed. *)
Theorem reload_restores_entry t n k d x now s :
  let ls := localStorage (set t n true k d x s) in
  get now k (new ls)
  = if now - t >? cacheExpiry
    then (JNull, mk [] [] 50 (base.delete (storageKey k) ls))
    else (d, mk [(k, d)] [(k, t)] 50 ls).
Proof.
  cbn zeta. unfold get, loadFromStorage. cbn [new cacheTimestamps map_get].
  unfold new. cbn [localStorage cache maxCacheSize map_set].
  rewrite set_mirrors. by destruct (now - t >? cacheExpiry).
Qed.

(** X6.  [cleanup] does nothing more when it is run again at the same time. *)
Theorem cleanup_again now s :
  wf s → 0 ≤ maxCacheSize s → cleanup now (cleanup now s) = cleanup now s.
Proof.
  intros Hwf Hmax.
  destruct (cleanup_spec now s Hwf Hmax) as (Hwf' & Hm & Hsub & Hlen & _).
  set (s' := cleanup now s) in *.
  unfold cleanup at 1.
  assert (expiredKeys now s' = []) as ->.
  { unfold expiredKeys. rewrite (filter_none (expired now)); [done|].
    intros kt Hkt. apply (elem_of_sublist _ _ _ Hkt) in Hsub. rename Hsub into Hkt'.
    clear Hkt. rename Hkt' into Hkt.
    by apply list_elem_of_filter in Hkt as [? _]. }
  cbn [foldl].
  destruct (Z.gtb_spec (map_size (cache s')) (maxCacheSize s')) as [Hgt|]; [|done].
  unfold map_size in Hgt. rewrite (wf_lengths _ Hwf'), Hlen, Hm in Hgt. lia.
Qed.

Lemma cleanup_again_witness :
  let s := mk [("a", JNum 1); ("b", JNum 2); ("c", JNum 3)]
              [("a", 5); ("b", 2); ("c", 9)] 2 ∅ in
  wf s ∧ 0 ≤ maxCacheSize s
  ∧ cleanup 10 (cleanup 10 s) = cleanup 10 s
  ∧ cache (cleanup 10 s) = [("a", JNum 1); ("c", JNum 3)].
Proof.
  cbn zeta.
  set (s := mk _ _ 2 ∅).
  assert (wf s) as Hwf.
  { split; [reflexivity|].
    apply (bool_decide_unpack (NoDup _)). vm_compute. exact I. }
  assert (0 ≤ maxCacheSize s) as Hmax by (simpl; lia).
  split; [exact Hwf|]. split; [exact Hmax|].
  split; [exact (cleanup_again 10 s Hwf Hmax)|]. vm_compute. reflexivity.
Defined.

(** X7.  When [has] answers [false], [get] at the same time answers [null]. *)
Theorem has_false_get_null now k s :
  (has now k s).1 = false → (get now k s).1 = JNull.
Proof.
  unfold has, get.
  assert ((let (stored, s') := loadFromStorage now k s in
           (negb (bool_decide (stored = JNull)), s')).1 = false →
          (loadFromStorage now k s).1 = JNull) as Hload.
  { destruct (loadFromStorage now k s) as [stored s']. cbn.
    intros H. apply negb_false_iff, bool_decide_eq_true in H. done. }
  destruct (map_get k (cacheTimestamps s)) as [t|]; [|done].
  destruct (t =? 0); [done|]. cbn [fst].
  destruct (Z.leb_spec (now - t) cacheExpiry); [done|]. intros _.
  destruct (Z.gtb_spec (now - t) cacheExpiry); [done|lia].
Qed.

Lemma has_false_get_null_witness :
  (has 5 "v" (new ∅)).1 = false ∧ (get 5 "v" (new ∅)).1 = JNull.
Proof.
  assert ((has 5 "v" (new ∅)).1 = false) as H by reflexivity.
  split; [exact H|]. exact (has_false_get_null 5 "v" (new ∅) H).
Defined.

(** *** [invalidatePattern] *)

Lemma foldl_delete_if (P : string → bool) ks s :
  foldl (λ st key, if P key then delete key st else st) s ks
  = foldl (λ st key, delete key st) s (filter (λ k, P k = true) ks).
Proof.
  revert s. induction ks as [|k ks IH]; intros s; [done|].
  cbn [foldl]. rewrite filter_cons. destruct (P k) eqn:E.
  - rewrite decide_True by done. cbn [foldl]. apply IH.
  - rewrite decide_False by congruence. apply IH.
Qed.

Lemma foldl_delete_storage ks k s :
  k ∈ ks → localStorage (foldl (λ st key, delete key st) s ks) !! storageKey k = None.
Proof.
  revert s. induction ks as [|k' ks IH]; intros s Hk; [by apply elem_of_nil in Hk|].
  cbn [foldl]. destruct (decide (k ∈ ks)) as [Hin|Hnin]; [by apply IH|].
  apply elem_of_cons in Hk as [->|?]; [|done].
  assert (∀ ks s, localStorage s !! storageKey k' = None →
            localStorage (foldl (λ st key, delete key st) s ks) !! storageKey k'
            = None) as Hkeep.
  { clear. induction ks as [|k ks IH]; intros s Hs; [done|].
    cbn [foldl]. apply IH. cbn [delete localStorage].
    rewrite lookup_delete. by case_decide. }
  apply Hkeep. cbn [delete localStorage]. apply lookup_delete_eq.
Qed.

(** X8.  [invalidatePattern] keeps, in their order, the keys in memory that
    do not contain the pattern, and removes the others from memory and from
    [localStorage]; with the empty pattern nothing stays in memory. *)
Theorem invalidatePattern_keeps_other_keys pattern s :
  wf s →
  let s' := CacheUtils.invalidatePattern pattern s in
  wf s'
  ∧ (cache s').*1 = filter (λ k, includes k pattern = false) (cache s).*1
  ∧ (∀ k, k ∈ (cache s).*1 → includes k pattern = true →
          localStorage s' !! storageKey k = None)
  ∧ (pattern = "" → cache s' = []).
Proof.
  intros Hwf. cbn zeta. unfold CacheUtils.invalidatePattern.
  cbn [CacheUtils.getStats CacheUtils.keys].
  rewrite foldl_delete_if.
  set (ks := filter _ (cache s).*1).
  destruct (delete_keys ks s Hwf) as (_ & Hc & _ & Hwf').
  assert (∀ k, k ∈ (cache s).*1 → k ∉ ks ↔ includes k pattern = false) as Hks.
  { intros k Hk. subst ks. rewrite list_elem_of_filter.
    destruct (includes k pattern); split; try done.
    - intros Hn. by destruct Hn.
    - by intros _ [? _]. }
  assert (cache (foldl (λ st key, delete key st) s ks)
          = filter (λ kv, includes kv.1 pattern = false) (cache s)) as Hc'.
  { rewrite Hc. apply filter_agree. intros [k v] Hkv. cbn.
    apply Hks. by apply (list_elem_of_fmap_2 fst) in Hkv. }
  split_and!.
  - done.
  - rewrite Hc'.
    exact (filter_keys (λ k, includes k pattern = false) (cache s)).
  - intros k Hk Hp. apply foldl_delete_storage.
    subst ks. by apply list_elem_of_filter.
  - intros ->. rewrite Hc'. apply filter_none. intros [k v] _. cbn.
    destruct k; cbn; discriminate.
Qed.

Lemma invalidatePattern_keeps_other_keys_witness :
  let s := set 2 2 true "vouchers_b" (JNum 2) 0
             (set 1 1 true "technicians" (JNum 1) 0
                (set 1 1 true "vouchers_a" (JNum 0) 0 (new ∅))) in
  wf s
  ∧ (cache (CacheUtils.invalidatePattern "vouchers" s)).*1 = ["technicians"].
Proof.
  cbn zeta. set (s := set 2 2 true _ _ _ _).
  assert (wf s) as Hwf.
  { split; [reflexivity|].
    apply (bool_decide_unpack (NoDup _)). vm_compute. exact I. }
  split; [exact Hwf|].
  destruct (invalidatePattern_keeps_other_keys "vouchers" s Hwf) as (_ & -> & _).
  vm_compute. reflexivity.
Defined.

(** X9.  A loader that [preload] has run with success: while the entry is
    not older than [cacheExpiry], [getOrFetch] for the key resolves to the
    preloaded payload, when it is truthy, without calling its loader. A
    loader that fails makes [preload] return [null] and leaves the cache as
    it was. *)
Theorem preload_then_getOrFetch t n k d now t2 n2 ok2 loader x s :
  wf s → truthy d = true → now - t ≤ cacheExpiry →
  let p := CacheUtils.preload t n true k (Resolved d) s in
  p.1 = d
  ∧ settled (getOrFetch now t2 n2 ok2 k loader x p.2) = Resolved d
  ∧ loaderCalls (getOrFetch now t2 n2 ok2 k loader x p.2) = 0%nat
  ∧ ∀ ok e, CacheUtils.preload t n ok k (Rejected e) s = (JNull, s).
Proof.
  intros Hwf Hd Hnow. cbn zeta. unfold CacheUtils.preload. cbn [fst snd].
  pose proof (get_set_mirrored t n k d cacheExpiry now s Hwf) as Hget.
  destruct (Z.gtb_spec (now - t) cacheExpiry) as [|_]; [lia|].
  rewrite getOrFetch_hit by (by rewrite Hget).
  cbn [settled loaderCalls]. by rewrite Hget.
Qed.

Lemma preload_then_getOrFetch_witness :
  wf (new ∅) ∧ truthy (JNum 3) = true ∧ 9 - 7 ≤ cacheExpiry
  ∧ settled (getOrFetch 9 9 9 true "technicians" (Rejected JNull) 0
               (CacheUtils.preload 7 7 true "technicians"
                  (Resolved (JNum 3)) (new ∅)).2)
    = Resolved (JNum 3).
Proof.
  assert (wf (new ∅)) as Hwf by (split; [reflexivity|apply NoDup_nil_2]).
  assert (truthy (JNum 3) = true) as Hd by reflexivity.
  assert (9 - 7 ≤ cacheExpiry) as Hnow by (unfold cacheExpiry; lia).
  split; [exact Hwf|]. split; [exact Hd|]. split; [exact Hnow|].
  exact (proj1 (proj2 (preload_then_getOrFetch 7 7 "technicians" (JNum 3) 9 9 9
                         true (Rejected JNull) 0 (new ∅) Hwf Hd Hnow))).
Defined.

End CacheMore.

(** ** The renderer: the other methods *)

Module ScrollMore.
Import JS JSFacts VirtualScrollingManager ScrollFacts.

(** *** The items in a range *)

(** The items that the loop creates for a range that lies in the list:
    the indices of the range, each with its element. *)
Lemma items_of_range (l : list record) (a n : nat) :
  (a + n ≤ length l)%nat →
  omap (λ i, (λ d, (i, d)) <$> nth_js l i) (seqZ (Z.of_nat a) (Z.of_nat n))
  = zip (seqZ (Z.of_nat a) (Z.of_nat n)) (take n (drop a l)).
Proof.
  revert a. induction n as [|n IH]; intros a Hlen; [done|].
  rewrite seqZ_cons by lia.
  replace (Z.pred (Z.of_nat (S n))) with (Z.of_nat n) by lia.
  replace (Z.succ (Z.of_nat a)) with (Z.of_nat (S a)) by lia.
  destruct (lookup_lt_is_Some_2 l a) as [x Hx]; [lia|].
  rewrite (drop_S l x a Hx). cbn [take zip zip_with omap list_omap].
  unfold nth_js at 1. destruct (Z.ltb_spec (Z.of_nat a) 0); [lia|].
  rewrite Nat2Z.id, Hx. cbn [fmap option_fmap option_map].
  f_equal. apply IH. lia.
Qed.

Lemma visibleItems_spec (s : state) :
  0 ≤ startIndex s → -1 ≤ endIndex s →
  endIndex s ≤ Z.of_nat (length (data s)) - 1 →
  visibleItems s
  = zip (seqZ (startIndex s) (endIndex s - startIndex s + 1)) (getVisibleItems s)
  ∧ length (getVisibleItems s) = Z.to_nat (endIndex s - startIndex s + 1).
Proof.
  intros Hs He Hl. unfold visibleItems, getVisibleItems, slice, clamp_index.
  destruct (Z.ltb_spec (startIndex s) 0); [lia|].
  destruct (Z.ltb_spec (endIndex s + 1) 0); [lia|].
  rewrite (Z.min_l (endIndex s + 1)) by lia.
  destruct (Z.le_gt_cases (startIndex s) (endIndex s)) as [Hle|Hgt].
  - rewrite (Z.min_l (startIndex s)) by lia.
    set (a := Z.to_nat (startIndex s)).
    set (n := Z.to_nat (endIndex s - startIndex s + 1)).
    replace (Z.to_nat (endIndex s + 1)) with (a + n)%nat by lia.
    rewrite <- take_drop_commute.
    replace (startIndex s) with (Z.of_nat a) by lia.
    replace (endIndex s - Z.of_nat a + 1) with (Z.of_nat n) by lia.
    split; [apply items_of_range; lia|].
    rewrite length_take, length_drop. lia.
  - rewrite seqZ_nil by lia. cbn [omap list_omap zip zip_with].
    rewrite drop_ge; [split; [done|cbn; lia]|].
    rewrite length_take. lia.
Qed.

(** The bounds of the range that [calculateVisibleRange] computes. *)
Lemma range_bounds (s : state) :
  0 < itemHeight s → 0 ≤ bufferSize s → 0 ≤ containerHeight s →
  0 ≤ scrollTop s →
  let s' := calculateVisibleRange s in
  0 ≤ startIndex s' ∧ -1 ≤ endIndex s'
  ∧ endIndex s' ≤ Z.of_nat (length (data s)) - 1.
Proof.
  intros Hh Hb Hch Hst. cbn zeta.
  cbn [calculateVisibleRange startIndex endIndex].
  pose proof (ceil_div_bounds (scrollTop s + containerHeight s) (itemHeight s) Hh).
  set (c := ceil_div _ _) in *.
  assert (0 ≤ c) by nia. lia.
Qed.

(** *** The properties *)

(** X10.  After [updateVisibleItems], with a positive item height and a
    buffer, a container height and a scroll offset that are not negative:
    the rendered items are the indices [startIndex .. endIndex] in order,
    and their data are what [getVisibleItems] returns. *)
Theorem rendered_items_are_the_visible_items (s : state) :
  0 < itemHeight s → 0 ≤ bufferSize s → 0 ≤ containerHeight s →
  0 ≤ scrollTop s →
  let s' := updateVisibleItems s in
  (rendered s').*2 = getVisibleItems s'
  ∧ (rendered s').*1 = seqZ (startIndex s') (endIndex s' - startIndex s' + 1)
  ∧ translateY s' = startIndex s' * itemHeight s.
Proof.
  intros Hh Hb Hch Hst. cbn zeta.
  destruct (range_bounds s Hh Hb Hch Hst) as (H1 & H2 & H3).
  destruct (visibleItems_spec (calculateVisibleRange s) H1 H2 H3) as [Hv Hl].
  unfold updateVisibleItems. cbn [rendered startIndex endIndex translateY].
  change (getVisibleItems (mk _ _ _ _ _ _ _ _ _ _ _ _ _))
    with (getVisibleItems (calculateVisibleRange s)).
  rewrite Hv. split_and!.
  - apply snd_zip. rewrite length_seqZ, Hl. lia.
  - apply fst_zip. rewrite length_seqZ, Hl. lia.
  - done.
Qed.

Lemma rendered_items_are_the_visible_items_witness :
  let s := mk 60 1 [∅; {[ "id" := JNum 1 ]}; ∅; ∅; ∅; ∅; ∅; ∅] 130 100 480
              0 0 None 480 true [] 0 in
  0 < itemHeight s ∧ 0 ≤ bufferSize s ∧ 0 ≤ containerHeight s ∧ 0 ≤ scrollTop s
  ∧ (rendered (updateVisibleItems s)).*1 = [1; 2; 3; 4; 5].
Proof.
  cbn zeta. set (s := mk 60 1 _ _ _ _ _ _ _ _ _ _ _).
  assert (0 < itemHeight s) as Hh by (simpl; lia).
  assert (0 ≤ bufferSize s) as Hb by (simpl; lia).
  assert (0 ≤ containerHeight s) as Hc by (simpl; lia).
  assert (0 ≤ scrollTop s) as Hs by (simpl; lia).
  split; [exact Hh|]. split; [exact Hb|]. split; [exact Hc|]. split; [exact Hs|].
  destruct (rendered_items_are_the_visible_items s Hh Hb Hc Hs) as (_ & -> & _).
  vm_compute. reflexivity.
Defined.

(** X11.  Every item of the list whose rectangle meets the viewport is in
    the range and is rendered. *)
Theorem items_in_view_are_rendered (s : state) (i : Z) (d : record) :
  0 < itemHeight s → 0 ≤ bufferSize s →
  nth_js (data s) i = Some d →
  i * itemHeight s < scrollTop s + containerHeight s →
  scrollTop s < (i + 1) * itemHeight s →
  let s' := updateVisibleItems s in
  startIndex s' ≤ i ≤ endIndex s' ∧ (i, d) ∈ rendered s'.
Proof.
  intros Hh Hb Hd Htop Hbot. cbn zeta.
  assert (0 ≤ i < Z.of_nat (length (data s))) as Hi.
  { unfold nth_js in Hd. destruct (Z.ltb_spec i 0); [done|].
    apply lookup_lt_Some in Hd. lia. }
  unfold updateVisibleItems. cbn [startIndex endIndex rendered].
  assert (startIndex (calculateVisibleRange s) ≤ i
          ≤ endIndex (calculateVisibleRange s)) as Hr.
  { cbn [calculateVisibleRange startIndex endIndex].
    pose proof (floor_div_bounds (scrollTop s) (itemHeight s) Hh).
    pose proof (ceil_div_bounds (scrollTop s + containerHeight s)
                  (itemHeight s) Hh).
    set (f := floor_div _ _) in *. set (c := ceil_div _ _) in *.
    assert (f ≤ i) by nia. assert (i < c) by nia. lia. }
  split; [done|].
  unfold visibleItems. apply list_elem_of_omap. exists i. split.
  - apply elem_of_seqZ. lia.
  - cbn [calculateVisibleRange data]. by rewrite Hd.
Qed.

Lemma items_in_view_are_rendered_witness :
  let s := mk 60 0 [∅; {[ "id" := JNum 1 ]}; ∅; ∅] 61 10 240 0 0 None 240 true [] 0 in
  0 < itemHeight s ∧ 0 ≤ bufferSize s
  ∧ nth_js (data s) 1 = Some {[ "id" := JNum 1 ]}
  ∧ (1, {[ "id" := JNum 1 ]}) ∈ rendered (updateVisibleItems s).
Proof.
  cbn zeta. set (s := mk 60 0 _ _ _ _ _ _ _ _ _ _ _).
  assert (0 < itemHeight s) as Hh by (simpl; lia).
  assert (0 ≤ bufferSize s) as Hb by (simpl; lia).
  assert (nth_js (data s) 1 = Some {[ "id" := JNum 1 ]}) as Hd by reflexivity.
  split; [exact Hh|]. split; [exact Hb|]. split; [exact Hd|].
  apply (items_in_view_are_rendered s 1 _ Hh Hb Hd); simpl; lia.
Defined.

(** X12.  [updateItem] with an index of the list replaces that element by
    its merge with the patch, a field of the patch taking precedence, and
    leaves the other elements, the length, the total height and the range as
    they are; with any other index it changes nothing. *)
Theorem updateItem_merges_in_place (s : state) (index : Z) (newData : record) :
  let s' := updateItem index newData s in
  length (data s') = length (data s)
  ∧ totalHeight s' = totalHeight s
  ∧ (startIndex s', endIndex s') = (startIndex s, endIndex s)
  ∧ (∀ j, j ≠ index → nth_js (data s') j = nth_js (data s) j)
  ∧ (∀ old, nth_js (data s) index = Some old →
       ∃ new, nth_js (data s') index = Some new
              ∧ ∀ f, new !! f = match newData !! f with
                                | Some v => Some v
                                | None => old !! f
                                end)
  ∧ (nth_js (data s) index = None → s' = s).
Proof.
  cbn zeta. unfold updateItem, nth_js.
  destruct (Z.leb_spec 0 index) as [H0|H0];
    destruct (Z.ltb_spec index (Z.of_nat (length (data s)))) as [Hl|Hl];
    cbn [andb data totalHeight startIndex endIndex].
  - destruct (Z.ltb_spec index 0); [lia|].
    rewrite length_insert. split_and!; try done.
    + intros j Hj. destruct (Z.ltb_spec j 0); [done|].
      apply list_lookup_insert_ne. lia.
    + intros old Hold. rewrite Hold. cbn [default].
      eexists. split.
      * apply list_lookup_insert_eq. lia.
      * intros f. rewrite lookup_union. unfold id.
        by destruct (newData !! f), (old !! f).
    + intros Hnone. apply lookup_ge_None in Hnone. lia.
  - split_and!; try done. intros old Hold. exfalso.
    destruct (index <? 0); [done|]. apply lookup_lt_Some in Hold. lia.
  - split_and!; try done. intros old Hold. exfalso.
    destruct (Z.ltb_spec index 0); [done|lia].
  - split_and!; try done. intros old Hold. exfalso.
    destruct (Z.ltb_spec index 0); [done|lia].
Qed.

(** Where [addItem] puts the item. *)
Lemma addItem_data (s : state) (item : record) (index : option Z) :
  let d := data s in
  let len := Z.of_nat (length d) in
  let i := default (-1) index in
  let n := if (i =? -1) || (len <=? i) then length d
           else if 0 <=? i then Z.to_nat i
           else Z.to_nat (Z.max 0 (len + i)) in
  data (addItem item index s) = take n d ++ item :: drop n d
  ∧ length (data (addItem item index s)) = S (length d).
Proof.
  cbn zeta. unfold addItem. cbn [updateVisibleItems withData data calculateVisibleRange].
  set (i := default (-1) index). set (d := data s).
  assert (∀ n, (n ≤ length d)%nat →
               length (take n d ++ item :: drop n d) = S (length d)) as Hlen.
  { intros n Hn. rewrite length_app, length_take. cbn [length].
    rewrite length_drop. lia. }
  destruct (Z.eqb_spec i (-1)) as [Hi|Hi]; cbn [orb].
  - rewrite take_ge, drop_ge by lia. split; [done|].
    rewrite length_app. cbn. lia.
  - unfold splice_insert, clamp_index.
    destruct (Z.leb_spec (Z.of_nat (length d)) i) as [Hge|Hlt].
    + destruct (Z.ltb_spec i 0); [lia|].
      rewrite Z.min_r, Nat2Z.id by lia. split; [done|]. by apply Hlen.
    + destruct (Z.leb_spec 0 i); destruct (Z.ltb_spec i 0); try lia.
      * rewrite Z.min_l by lia. split; [done|]. apply Hlen. lia.
      * rewrite (Z.max_comm 0). split; [done|]. apply Hlen. lia.
Qed.

(** X13.  [addItem] puts the item in the list once and keeps the other
    elements in their order: at the end when no index or the index [-1] is
    given or the index is past the end, at the index when it lies in the
    list, and counted from the end for another negative index.  The total
    height grows by one item height. *)
Theorem addItem_inserts_one (s : state) (item : record) (index : option Z) :
  let d := data s in
  let len := Z.of_nat (length d) in
  let i := default (-1) index in
  let n := if (i =? -1) || (len <=? i) then length d
           else if 0 <=? i then Z.to_nat i
           else Z.to_nat (Z.max 0 (len + i)) in
  data (addItem item index s) = take n d ++ item :: drop n d
  ∧ length (data (addItem item index s)) = S (length d)
  ∧ totalHeight (addItem item index s) = (len + 1) * itemHeight s.
Proof.
  cbn zeta. destruct (addItem_data s item index) as [Hd Hl].
  split; [exact Hd|]. split; [exact Hl|].
  assert (totalHeight (addItem item index s)
          = Z.of_nat (length (data (addItem item index s))) * itemHeight s)
    as -> by reflexivity.
  rewrite Hl. f_equal. lia.
Qed.

(** What [updateVisibleItems] makes of a list depends on the geometry,
    the render function and the spacer of the instance only. *)
Lemma refresh_congr (d : list record) (s s' : state) :
  itemHeight s = itemHeight s' → bufferSize s = bufferSize s' →
  scrollTop s = scrollTop s' → containerHeight s = containerHeight s' →
  renderFunction s = renderFunction s' → spacerAttached s = spacerAttached s' →
  updateVisibleItems (withData d s) = updateVisibleItems (withData d s').
Proof.
  destruct s, s'. cbn [itemHeight bufferSize scrollTop containerHeight
                       renderFunction spacerAttached].
  by intros -> -> -> -> -> ->.
Qed.

(** X14.  Adding an item at an index of the list (or at its end) and
    removing the item at that index leaves the renderer as [setData] with
    the same list and render function would: the list and the total height
    are back, and the range is computed again. *)
Theorem addItem_then_removeItem (s : state) (item : record) (i : Z) :
  0 ≤ i ≤ Z.of_nat (length (data s)) →
  removeItem i (addItem item (Some i) s) = setData (data s) (renderFunction s) s
  ∧ removeItem (Z.of_nat (length (data s))) (addItem item None s)
    = setData (data s) (renderFunction s) s.
Proof.
  intros Hi.
  assert (∀ s1 n, (n ≤ length (data s))%nat →
            data s1 = take n (data s) ++ item :: drop n (data s) →
            itemHeight s1 = itemHeight s → bufferSize s1 = bufferSize s →
            scrollTop s1 = scrollTop s → containerHeight s1 = containerHeight s →
            renderFunction s1 = renderFunction s →
            spacerAttached s1 = spacerAttached s →
            removeItem (Z.of_nat n) s1
            = setData (data s) (renderFunction s) s) as Hround.
  { intros s1 n Hn Hd Hih Hbs Hst Hch Hrf Hsp.
    assert (length (take n (data s) ++ item :: drop n (data s))
            = S (length (data s))) as Hlen.
    { rewrite length_app, length_take. cbn [length]. rewrite length_drop. lia. }
    assert (splice_remove (Z.of_nat n) (take n (data s) ++ item :: drop n (data s))
            = data s) as Hback.
    { unfold splice_remove, clamp_index. rewrite Hlen.
      destruct (Z.ltb_spec (Z.of_nat n) 0); [lia|].
      rewrite Z.min_l, Nat2Z.id by lia.
      rewrite take_app_length' by (rewrite length_take; lia).
      rewrite (cons_middle item), app_assoc.
      rewrite drop_app_length' by (rewrite length_app, length_take; cbn; lia).
      apply take_drop. }
    unfold removeItem. rewrite Hd, Hlen, Hback.
    destruct (Z.leb_spec 0 (Z.of_nat n)); [|lia].
    destruct (Z.ltb_spec (Z.of_nat n) (Z.of_nat (S (length (data s))))); [|lia].
    cbn [andb]. unfold setData.
    apply refresh_congr; cbn [itemHeight bufferSize scrollTop containerHeight
                              renderFunction spacerAttached]; done. }
  assert (∀ index,
            let s1 := addItem item index s in
            itemHeight s1 = itemHeight s ∧ bufferSize s1 = bufferSize s
            ∧ scrollTop s1 = scrollTop s ∧ containerHeight s1 = containerHeight s
            ∧ renderFunction s1 = renderFunction s
            ∧ spacerAttached s1 = spacerAttached s) as Hframe.
  { intros index. by split_and!. }
  destruct (addItem_data s item (Some i)) as [Hd1 _].
  destruct (addItem_data s item None) as [Hd2 _].
  change (default (-1) (Some i)) with i in Hd1.
  change (default (-1) None) with (-1) in Hd2.
  change (-1 =? -1) with true in Hd2. cbn [orb] in Hd2.
  split.
  - destruct (Z.eqb_spec i (-1)); [lia|]. cbn [orb] in Hd1.
    destruct (Hframe (Some i)) as (? & ? & ? & ? & ? & ?).
    destruct (Z.leb_spec (Z.of_nat (length (data s))) i) as [Hge|Hlt].
    + assert (i = Z.of_nat (length (data s))) as Hieq by lia.
      rewrite Hieq at 1. apply (Hround _ (length (data s))); [lia|done..].
    + destruct (Z.leb_spec 0 i); [|lia].
      rewrite <- (Z2Nat.id i) at 1 by lia.
      apply (Hround _ (Z.to_nat i)); [lia|done..].
  - destruct (Hframe None) as (? & ? & ? & ? & ? & ?).
    apply (Hround _ (length (data s))); [lia|done..].
Qed.

Lemma addItem_then_removeItem_witness :
  let s := setData [∅; {[ "id" := JNum 1 ]}] None
             (mk 60 5 [] 0 600 0 0 0 None 0 true [] 0) in
  0 ≤ 1 ≤ Z.of_nat (length (data s))
  ∧ removeItem 1 (addItem {[ "id" := JNum 9 ]} (Some 1) s) = s.
Proof.
  cbn zeta. set (s := setData _ None _).
  assert (0 ≤ 1 ≤ Z.of_nat (length (data s))) as Hi by (simpl; lia).
  split; [exact Hi|].
  destruct (addItem_then_removeItem s {[ "id" := JNum 9 ]} 1 Hi) as [-> _].
  reflexivity.
Defined.

(** X15.  [scrollToIndex] for an index of the list, followed by the scroll
    event of the container, which holds the assigned offset or, when the
    content is too short for it, the largest offset the content allows: the
    item is in the range afterwards, whether [handleScroll] computes the
    range again or finds the movement too small. *)
Theorem scrollToIndex_brings_item_in_range (s : state) (i target v : Z) :
  0 < itemHeight s → 0 ≤ bufferSize s → 0 ≤ containerHeight s →
  heightInvariant s → calculateVisibleRange s = s →
  scrollToIndex i s = Some target →
  v = target `min` (0 `max` (totalHeight s - containerHeight s)) →
  target = i * itemHeight s
  ∧ startIndex (handleScroll v s) ≤ i ≤ endIndex (handleScroll v s).
Proof.
  intros Hh Hb Hch Hinv Hfresh Hscroll Hv.
  unfold scrollToIndex in Hscroll.
  destruct (Z.leb_spec 0 i) as [H0|]; [|done].
  destruct (Z.ltb_spec i (Z.of_nat (length (data s)))) as [Hl|]; [|done].
  cbn [andb] in Hscroll. injection Hscroll as <-. split; [done|].
  unfold heightInvariant in Hinv.
  set (len := Z.of_nat (length (data s))) in *.
  set (h := itemHeight s) in *.
  assert (∀ st,
            2 * (v - st) ≤ h → 2 * (st - v) ≤ h ∨ st = v →
            0 `max` (floor_div st h - bufferSize s) ≤ i
            ≤ (len - 1) `min` (ceil_div (st + containerHeight s) h + bufferSize s))
    as Hrange.
  { intros st Hlo Hhi.
    pose proof (floor_div_bounds st h Hh) as Hf.
    pose proof (ceil_div_bounds (st + containerHeight s) h Hh) as Hc.
    set (f := floor_div st h) in *.
    set (c := ceil_div (st + containerHeight s) h) in *.
    assert (v ≤ i * h) by lia.
    assert (f ≤ i) by nia.
    assert (i ≤ c).
    { destruct (Z.le_gt_cases (i * h) (0 `max` (totalHeight s - containerHeight s)))
        as [Hfit|Hshort].
      - assert (v = i * h) by lia. nia.
      - assert (v = 0 `max` (totalHeight s - containerHeight s)) as Hv' by lia.
        assert (len * h ≤ v + containerHeight s) by lia.
        assert (len ≤ c); [|lia]. nia. }
    lia. }
  unfold handleScroll.
  destruct (Z.gtb_spec (2 * Z.abs (v - scrollTop s)) (itemHeight s)) as [Hbig|Hsmall].
  - cbn [updateVisibleItems calculateVisibleRange startIndex endIndex
         scrollTop itemHeight bufferSize containerHeight data].
    fold h len. apply Hrange; lia.
  - rewrite <- Hfresh.
    cbn [calculateVisibleRange startIndex endIndex]. fold h len.
    apply Hrange; fold h in Hsmall; lia.
Qed.

Lemma scrollToIndex_brings_item_in_range_witness :
  let s := setData (replicate 20 ∅) None
             (mk 60 1 [] 0 200 0 0 0 None 0 true [] 0) in
  0 < itemHeight s ∧ 0 ≤ bufferSize s ∧ 0 ≤ containerHeight s
  ∧ heightInvariant s ∧ calculateVisibleRange s = s
  ∧ scrollToIndex 19 s = Some 1140
  ∧ startIndex (handleScroll 1000 s) ≤ 19 ≤ endIndex (handleScroll 1000 s).
Proof.
  cbn zeta. set (s := setData _ None _).
  assert (0 < itemHeight s) as Hh by (simpl; lia).
  assert (0 ≤ bufferSize s) as Hb by (simpl; lia).
  assert (0 ≤ containerHeight s) as Hc by (simpl; lia).
  assert (heightInvariant s) as Hinv by reflexivity.
  assert (calculateVisibleRange s = s) as Hf by reflexivity.
  assert (scrollToIndex 19 s = Some 1140) as Hs by reflexivity.
  split; [exact Hh|]. split; [exact Hb|]. split; [exact Hc|].
  split; [exact Hinv|]. split; [exact Hf|]. split; [exact Hs|].
  apply (scrollToIndex_brings_item_in_range s 19 1140 1000 Hh Hb Hc Hinv Hf Hs).
  reflexivity.
Defined.

(** X22.  A scroll movement that [handleScroll] ignores, of half an item
    height or less since the offset it last recorded: with a buffer of at
    least one item, every item of the list that the viewport meets at the
    new offset is still in the range and among the rendered items. *)
Theorem ignored_scroll_stays_covered (s : state) (v i : Z) (d : record) :
  0 < itemHeight s → 1 ≤ bufferSize s → updateVisibleItems s = s →
  2 * Z.abs (v - scrollTop s) ≤ itemHeight s →
  nth_js (data s) i = Some d →
  i * itemHeight s < v + containerHeight s → v < (i + 1) * itemHeight s →
  handleScroll v s = s
  ∧ startIndex s ≤ i ≤ endIndex s ∧ (i, d) ∈ rendered s.
Proof.
  intros Hh Hb Hfresh Hsmall Hd Htop Hbot.
  assert (0 ≤ i < Z.of_nat (length (data s))) as Hi.
  { unfold nth_js in Hd. destruct (Z.ltb_spec i 0); [done|].
    apply lookup_lt_Some in Hd. lia. }
  pose proof (f_equal startIndex Hfresh) as Hs.
  pose proof (f_equal endIndex Hfresh) as He.
  pose proof (f_equal rendered Hfresh) as Hr.
  unfold updateVisibleItems in Hs, He, Hr.
  cbn [startIndex endIndex rendered calculateVisibleRange] in Hs, He, Hr.
  assert (startIndex s ≤ i ≤ endIndex s) as Hrange.
  { rewrite <- Hs, <- He.
    pose proof (floor_div_bounds (scrollTop s) (itemHeight s) Hh).
    pose proof (ceil_div_bounds (scrollTop s + containerHeight s)
                  (itemHeight s) Hh).
    set (f := floor_div _ _) in *. set (c := ceil_div _ _) in *.
    assert (f ≤ i + 1) by nia. assert (i ≤ c) by nia. lia. }
  split_and!.
  - unfold handleScroll.
    by destruct (Z.gtb_spec (2 * Z.abs (v - scrollTop s)) (itemHeight s)); [lia|].
  - lia.
  - lia.
  - rewrite <- Hr. unfold visibleItems.
    cbn [calculateVisibleRange startIndex endIndex data].
    rewrite Hs, He. apply list_elem_of_omap. exists i. split.
    + apply elem_of_seqZ. lia.
    + by rewrite Hd.
Qed.

Lemma ignored_scroll_stays_covered_witness :
  let s := updateVisibleItems
             (mk 60 1 [∅; {[ "id" := JNum 1 ]}; ∅; ∅; ∅; ∅; ∅; ∅] 130 100 480
                 0 0 None 480 true [] 0) in
  0 < itemHeight s ∧ 1 ≤ bufferSize s ∧ updateVisibleItems s = s
  ∧ 2 * Z.abs (110 - scrollTop s) ≤ itemHeight s
  ∧ nth_js (data s) 1 = Some {[ "id" := JNum 1 ]}
  ∧ (1, {[ "id" := JNum 1 ]}) ∈ rendered s.
Proof.
  cbn zeta. set (s := updateVisibleItems _).
  assert (0 < itemHeight s) as Hh by (vm_compute; reflexivity).
  assert (1 ≤ bufferSize s) as Hb by (vm_compute; discriminate).
  assert (updateVisibleItems s = s) as Hf by (vm_compute; reflexivity).
  assert (2 * Z.abs (110 - scrollTop s) ≤ itemHeight s) as Hv
    by (vm_compute; discriminate).
  assert (nth_js (data s) 1 = Some {[ "id" := JNum 1 ]}) as Hd by reflexivity.
  split; [exact Hh|]. split; [exact Hb|]. split; [exact Hf|].
  split; [exact Hv|]. split; [exact Hd|].
  apply (ignored_scroll_stays_covered s 110 1 _ Hh Hb Hf Hv Hd);
    vm_compute; reflexivity.
Defined.

End ScrollMore.

(** ** More on the voucher search *)

Module VoucherMore.
Import JS JSFacts VoucherManager VoucherFacts VoucherWorld.

(** *** The cached collection *)

Lemma toLowerCase_empty q : toLowerCase q = "" → q = "".
Proof. by destruct q. Qed.

Lemma includes_empty q : includes "" q = true → q = "".
Proof.
  cbn [includes]. rewrite orb_false_r. by destruct q.
Qed.


(** A search that is not turned away leaves the collection it scanned in
    the cache, and reports a failure of the load. *)
Lemma performVoucherSearch_cache s :
  currentQuery s ≠ "" → noUser s = false →
  allVouchersCache (performVoucherSearch s) = Some (collection s)
  ∧ errors (performVoucherSearch s) = errors (loadAllVouchersCache s).
Proof.
  intros Hq Hu. unfold performVoucherSearch.
  set (s0 := set_searches _ s).
  assert (noUser s0 = noUser s) as -> by (by destruct s).
  rewrite Hu. destruct (String.eqb_spec (currentQuery s) ""); [done|].
  cbn [orb].
  assert (allVouchersCache (loadAllVouchersCache s0) = Some (collection s)
          ∧ errors (loadAllVouchersCache s0) = errors (loadAllVouchersCache s))
    as [Ec Ee].
  { unfold collection, loadAllVouchersCache. subst s0. destruct s. fields.
    destruct allVouchersCache0; fields; [done|]. by destruct remote0. }
  set (s1 := loadAllVouchersCache s0) in *.
  destruct (_ =? _)%nat; [|destruct (_ <=? _)%nat]; destruct s1; fields; done.
Qed.

Lemma collection_cached c s : allVouchersCache s = Some c → collection s = c.
Proof. intros E. unfold collection, loadAllVouchersCache. by rewrite E, E. Qed.

(** X16.  Once a search has loaded the collection, later searches scan the
    cached copy, whatever becomes of the remote collection: the same query
    gives the same results and no new error. After [invalidateVoucherCache]
    the next search scans the remote collection as it is then. A load that
    fails leaves an empty cache behind, so that the searches that follow
    find nothing. *)
Theorem search_reads_the_cache_until_invalidated
    (s : state) (docs' : option (list (string * record))) :
  currentQuery s ≠ "" → noUser s = false →
  let s1 := performVoucherSearch s in
  let s2 := performVoucherSearch (set_remote docs' s1) in
  allVouchersCache s1 = Some (collection s)
  ∧ searchResults s2 = searchResults s1
  ∧ errors s2 = errors s1
  ∧ collection (invalidateVoucherCache (set_remote docs' s1))
    = match docs' with Some docs => withId <$> docs | None => [] end
  ∧ (allVouchersCache s = None → remote s = None →
     allVouchersCache s1 = Some []
     ∧ errors s1 = errors s ++ ["Failed to load voucher cache"]
     ∧ searchResults s2 = []).
Proof.
  intros Hq Hu. cbn zeta.
  destruct (performVoucherSearch_cache s Hq Hu) as [Ec Ee].
  destruct (performVoucherSearch_frame s) as (_ & _ & _ & _ & Ei & _ & Eu & _).
  destruct (performVoucherSearch_run s Hq Hu) as (Er & _).
  set (s1 := performVoucherSearch s) in *.
  assert (currentQuery (set_remote docs' s1) = currentQuery s) as Eq'.
  { unfold currentQuery. cbn [set_remote searchInput]. by rewrite Ei. }
  assert (noUser (set_remote docs' s1) = false) as Hu'.
  { rewrite <- Hu. unfold noUser. cbn [set_remote currentUserId].
    by rewrite Eu. }
  assert (collection (set_remote docs' s1) = collection s) as Ec'.
  { apply collection_cached. exact Ec. }
  assert (currentQuery (set_remote docs' s1) ≠ "") as Hq' by (by rewrite Eq').
  destruct (performVoucherSearch_run _ Hq' Hu') as (Er' & _).
  destruct (performVoucherSearch_cache _ Hq' Hu') as [_ Ee'].
  rewrite Eq', Ec' in Er'.
  assert (errors (performVoucherSearch (set_remote docs' s1)) = errors s1) as Ee2.
  { rewrite Ee'. unfold loadAllVouchersCache.
    assert (allVouchersCache (set_remote docs' s1) = Some (collection s)) as ->
      by exact Ec.
    reflexivity. }
  split_and!.
  - done.
  - by rewrite Er', Er.
  - done.
  - unfold collection, loadAllVouchersCache, invalidateVoucherCache.
    cbn [set_remote set_allVouchersCache allVouchersCache remote showMessage
         set_messageBox set_errors].
    by destruct docs'.
  - intros Hnone Hrem.
    assert (collection s = []) as Hc.
    { unfold collection, loadAllVouchersCache. rewrite Hnone.
      cbn [showMessage set_messageBox remote]. by rewrite Hrem. }
    split_and!.
    + by rewrite Ec, Hc.
    + rewrite Ee. unfold loadAllVouchersCache. rewrite Hnone.
      cbn [showMessage set_messageBox remote]. by rewrite Hrem.
    + rewrite Er', Hc. done.
Qed.

Lemma search_reads_the_cache_until_invalidated_witness :
  let v : record := {[ "voucherNumber" := JStr "A-17" ]} in
  let s := initialize "u" (new (Some "17") 0 (Some [("d1", v)])) in
  currentQuery s ≠ "" ∧ noUser s = false
  ∧ searchResults (performVoucherSearch
                     (set_remote (Some []) (performVoucherSearch s)))
    = [withId ("d1", v)].
Proof.
  cbn zeta. set (v := {[ _ := _ ]}). set (s := initialize _ _).
  assert (currentQuery s ≠ "") as Hq by (vm_compute; discriminate).
  assert (noUser s = false) as Hu by reflexivity.
  split; [exact Hq|]. split; [exact Hu|].
  destruct (search_reads_the_cache_until_invalidated s (Some []) Hq Hu)
    as (_ & -> & _).
  vm_compute. reflexivity.
Defined.

(** X17.  Every result of a search is a voucher of the collection that has a
    voucher number, one that is not missing, empty or [0], and this number,
    in lower case, contains the query in lower case. *)
Theorem results_have_matching_numbers (s : state) (v : record) :
  currentQuery s ≠ "" → noUser s = false →
  v ∈ searchResults (performVoucherSearch s) →
  v ∈ collection s
  ∧ truthy (field v "voucherNumber") = true
  ∧ includes (toLowerCase (toString (field v "voucherNumber")))
             (toLowerCase (currentQuery s)) = true.
Proof.
  intros Hq Hu Hv.
  destruct (performVoucherSearch_run s Hq Hu) as (Er & _).
  destruct (scan_spec (toLowerCase (currentQuery s)) (collection s) [] 0)
    as (k & _ & _ & _ & Et & _); [unfold ceiling; cbn; lia|].
  cbn [app] in Et. rewrite Er, Et in Hv.
  apply elem_of_take in Hv as (i & Hi & _).
  apply list_elem_of_lookup_2 in Hi. unfold matching in Hi.
  apply list_elem_of_filter in Hi as [Hm Hin]. split; [done|].
  unfold matches, or_else in Hm.
  destruct (truthy (field v "voucherNumber")); [done|].
  apply includes_empty, toLowerCase_empty in Hm. done.
Qed.

Lemma results_have_matching_numbers_witness :
  let v1 : record := {[ "voucherNumber" := JStr "xAB-1" ]} in
  let v2 : record := {[ "customerName" := JStr "ab" ]} in
  let s := mk (Some "u") None (Some [v2; v1]) [] false (Some "ab") true
              None None 0 0 [] 1 None [] [] in
  currentQuery s ≠ "" ∧ noUser s = false
  ∧ v1 ∈ searchResults (performVoucherSearch s)
  ∧ truthy (field v1 "voucherNumber") = true.
Proof.
  cbn zeta.
  set (s := mk _ _ _ _ _ _ _ _ _ _ _ _ _ _ _ _).
  assert (currentQuery s ≠ "") as Hq by (vm_compute; discriminate).
  assert (noUser s = false) as Hu by reflexivity.
  assert ({[ "voucherNumber" := JStr "xAB-1" ]}
          ∈ searchResults (performVoucherSearch s)) as Hv.
  { assert (searchResults (performVoucherSearch s)
            = [{[ "voucherNumber" := JStr "xAB-1" ]}]) as ->
      by (vm_compute; reflexivity).
    left. }
  split; [exact Hq|]. split; [exact Hu|]. split; [exact Hv|].
  by destruct (results_have_matching_numbers s _ Hq Hu Hv) as (_ & ? & _).
Defined.

(** *** Invariants of the event handlers *)

(** The handlers leave the time alone. *)
Lemma handle_clock e s : clock (handle e s) = clock s.
Proof.
  destruct e as [v|k|v]; cbn [handle].
  - destruct (searchInput s) eqn:Ei; [|done].
    destruct (listening (set_searchInput (Some v) s)); [|by destruct s].
    unfold handleSearchInput, setTimeout, clearTimeout.
    destruct (String.eqb (trim v) "");
      destruct s as [? [h|] ? ? [|] ? ? ? ? ? ? ? ? ? ? ?]; fields; done.
  - destruct (listening s); [|done]. unfold handleKeypress.
    destruct (String.eqb k "Enter"); [|done].
    destruct (performVoucherSearch_frame
                (match searchDebounceTimer s with
                 | Some h => clearTimeout h s
                 | None => s
                 end)) as (-> & _).
    destruct (searchDebounceTimer s); [|done]. by destruct s.
  - destruct (searchInput s); [|done]. by destruct s.
Qed.

Lemma dispatch_clock te s : clock s ≤ te.1 → clock (dispatch te s) = te.1.
Proof.
  intros Hclk. unfold dispatch. rewrite handle_clock.
  by destruct (advance_frame te.1 s Hclk) as (-> & _).
Qed.

Lemma singleTimer_dispatch te s :
  clock s ≤ te.1 → singleTimer s → singleTimer (dispatch te s).
Proof.
  intros Hclk [Hown Hlen]. split; [by apply timersOwned_dispatch|].
  destruct te as [t e]. cbn [fst] in Hclk.
  pose proof (timersOwned_advance t s Hclk Hown) as Hown'.
  assert (length (timers (advance t s)) ≤ 1)%nat as Hlen'.
  { destruct (advance_frame t s Hclk) as (_ & -> & _).
    pose proof (length_filter (λ tm : positive * Z, ¬ tm.2 ≤ t) (timers s)). lia. }
  unfold dispatch. cbn [fst snd]. set (s0 := advance t s) in *.
  clearbody s0. clear s Hclk Hown Hlen.
  assert (∀ v, timersOwned (set_searchInput (Some v) s0)) as Hset.
  { intros v. by destruct s0. }
  assert (∀ v, timers (set_searchInput (Some v) s0) = timers s0) as Hsett.
  { intros v. by destruct s0. }
  destruct e as [v|k|v]; cbn [handle].
  - destruct (searchInput s0); [|done].
    destruct (listening (set_searchInput (Some v) s0)); [|by rewrite Hsett].
    destruct (decide (trim v = "")) as [Hv|Hv].
    + destruct (handleSearchInput_clears v _ (Hset v) Hv) as (-> & _).
      cbn [length]. lia.
    + destruct (handleSearchInput_arms v _ (Hset v) Hv) as (-> & _). done.
  - destruct (listening s0); [|done]. unfold handleKeypress.
    destruct (String.eqb k "Enter"); [|done].
    pose proof (owned_clear s0 Hown') as Hclr.
    destruct (performVoucherSearch_frame
                (match searchDebounceTimer s0 with
                 | Some h => clearTimeout h s0
                 | None => s0
                 end)) as (_ & -> & _).
    rewrite Hclr. cbn [length]. lia.
  - destruct (searchInput s0); [by rewrite Hsett|done].
Qed.

(** X18.  Events in the order of their times: at every moment at most one
    time-out is pending, and it is the one whose handle
    [searchDebounceTimer] holds. *)
Theorem at_most_one_pending_timeout (tes : list (Z * event)) (s : state) :
  singleTimer s → Sorted Z.le (clock s :: tes.*1) →
  ∀ n, let s' := run (take n tes) s in
       (length (timers s') ≤ 1)%nat
       ∧ ∀ tm, tm ∈ timers s' → searchDebounceTimer s' = Some tm.1.
Proof.
  intros Hsingle Hsorted n. cbn zeta.
  assert (singleTimer (run (take n tes) s)) as [Hown Hlen]; [|done].
  revert s n Hsingle Hsorted.
  induction tes as [|te tes IH]; intros s n Hsingle Hsorted.
  - by rewrite take_nil.
  - destruct n as [|n]; [done|]. cbn [take]. unfold run. cbn [foldl].
    rewrite fmap_cons in Hsorted.
    apply Sorted_inv in Hsorted as [Hsorted Hhd].
    apply HdRel_inv in Hhd.
    apply IH.
    + by apply singleTimer_dispatch.
    + by rewrite dispatch_clock.
Qed.

Lemma at_most_one_pending_timeout_witness :
  let s := initialize "u" (new (Some "") 0 None) in
  let tes := [(0, Input "a"); (100, Input "ab"); (150, Keypress "x");
              (350, Input "abc")] in
  singleTimer s ∧ Sorted Z.le (clock s :: tes.*1)
  ∧ (length (timers (run tes s)) ≤ 1)%nat.
Proof.
  cbn zeta. set (s := initialize _ _).
  set (tes := [(0, Input "a"); _; _; _]).
  assert (singleTimer s) as Hs.
  { split; [intros tm Htm; inversion Htm|cbn; lia]. }
  assert (Sorted Z.le (clock s :: tes.*1)) as Hsorted.
  { repeat (constructor; try (cbn; lia)). }
  split; [exact Hs|]. split; [exact Hsorted|].
  exact (proj1 (at_most_one_pending_timeout tes s Hs Hsorted 4)).
Defined.






End VoucherMore.

(** ** The error handler *)

Module ErrorHandlerFacts.
Import JS ErrorHandler.

Section Log.
Context {errorInfo : Type}.
Implicit Types (s : state errorInfo) (info : errorInfo).

Lemma logError_log ok info s :
  0 ≤ maxLogSize s →
  errorLog (logError ok info s)
  = take (Z.to_nat (maxLogSize s)) (info :: errorLog s)
  ∧ maxLogSize (logError ok info s) = maxLogSize s
  ∧ storedLog (logError ok info s)
    = if ok then Some (errorLog (logError ok info s)) else storedLog s.
Proof.
  intros Hm. unfold logError. cbn [errorLog maxLogSize storedLog].
  split; [|done].
  set (log := info :: errorLog s).
  destruct (Z.gtb_spec (Z.of_nat (length log)) (maxLogSize s)) as [Hgt|Hle].
  - unfold slice, clamp_index. cbn [Z.ltb Z.compare].
    destruct (Z.ltb_spec (maxLogSize s) 0); [lia|].
    rewrite Z.min_l, Z.min_l by lia. by rewrite drop_0.
  - rewrite take_ge; [done|lia].
Qed.

Lemma take_app_take {A} (n : nat) (a b : list A) :
  take n (a ++ take n b) = take n (a ++ b).
Proof.
  rewrite !take_app, take_take. do 2 f_equal. lia.
Qed.

Lemma logError_fold (infos : list (bool * errorInfo)) s :
  0 ≤ maxLogSize s →
  Z.of_nat (length (errorLog s)) ≤ maxLogSize s →
  let s' := foldl (λ st e, logError e.1 e.2 st) s infos in
  maxLogSize s' = maxLogSize s
  ∧ errorLog s'
    = take (Z.to_nat (maxLogSize s)) (reverse infos.*2 ++ errorLog s).
Proof.
  cbn zeta. revert s. induction infos as [|[ok info] infos IH]; intros s Hm Hlen.
  - cbn [foldl fmap list_fmap]. rewrite reverse_nil. cbn [app].
    split; [done|]. rewrite take_ge; [done|lia].
  - cbn [foldl fst snd].
    destruct (logError_log ok info s Hm) as (El & Em & _).
    destruct (IH (logError ok info s)) as [Em' El'].
    + by rewrite Em.
    + rewrite El, Em, length_take. lia.
    + rewrite Em', El', El, Em. split; [done|].
      rewrite take_app_take, fmap_cons, reverse_cons, <- app_assoc. done.
Qed.

(** X20.  The log holds the errors logged, the newest first, cut to the
    [maxLogSize] newest; after a write that succeeds the stored item is the
    log; clearing empties both. *)
Theorem log_holds_the_newest (infos : list (bool * errorInfo)) s :
  0 ≤ maxLogSize s →
  Z.of_nat (length (errorLog s)) ≤ maxLogSize s →
  let s' := foldl (λ st e, logError e.1 e.2 st) s infos in
  getErrorLog s'
  = take (Z.to_nat (maxLogSize s)) (reverse infos.*2 ++ errorLog s)
  ∧ Z.of_nat (length (getErrorLog s')) ≤ maxLogSize s
  ∧ (∀ info, last infos = Some (true, info) → storedLog s' = Some (errorLog s'))
  ∧ clearErrorLog s' = mk [] (maxLogSize s) None.
Proof.
  intros Hm Hlen. cbn zeta.
  destruct (logError_fold infos s Hm Hlen) as [Em El].
  unfold getErrorLog, clearErrorLog. rewrite Em. split_and!; try done.
  - rewrite El, length_take. lia.
  - intros info [l ->]%last_Some. rewrite foldl_app. cbn [foldl fst snd].
    destruct (logError_fold l s Hm Hlen) as [Em1 _].
    by destruct (logError_log true info (foldl (λ st e, logError e.1 e.2 st) s l))
      as (_ & _ & ->); [rewrite Em1|].
Qed.

End Log.

(** A hundred and one errors logged by a new handler: the first one is no
    longer in the log. *)
Lemma log_holds_the_newest_witness :
  let s := new (errorInfo := nat) None in
  let infos := (λ n, (true, n)) <$> seq 0 101 in
  0 ≤ maxLogSize s ∧ Z.of_nat (length (errorLog s)) ≤ maxLogSize s
  ∧ getErrorLog (foldl (λ st e, logError e.1 e.2 st) s infos)
    = reverse (seq 1 100).
Proof.
  cbn zeta. set (s := new None). set (infos := _ <$> _).
  assert (0 ≤ maxLogSize s) as Hm by (cbn; lia).
  assert (Z.of_nat (length (errorLog s)) ≤ maxLogSize s) as Hl by (cbn; lia).
  split; [exact Hm|]. split; [exact Hl|].
  destruct (log_holds_the_newest infos s Hm Hl) as [-> _].
  vm_compute. reflexivity.
Defined.

(** *** Retrying *)

(** The delays waited before call number [k]: each twice the one before. *)
Lemma backoff_cons (d : Z) (k : nat) :
  d :: ((λ j : nat, d * 2 * 2 ^ Z.of_nat j) <$> seq 0 k)
  = (λ j : nat, d * 2 ^ Z.of_nat j) <$> seq 0 (S k).
Proof.
  cbn [seq fmap list_fmap]. f_equal; [cbn; lia|].
  rewrite <- fmap_S_seq, <- list_fmap_compose. apply list_fmap_ext.
  intros _ j _. cbn [compose]. rewrite Nat2Z.inj_succ, Z.pow_succ_r by lia. lia.
Qed.

Lemma backoff_sum (d : Z) (k : nat) :
  foldr Z.add 0 ((λ j : nat, d * 2 ^ Z.of_nat j) <$> seq 0 k)
  = d * (2 ^ Z.of_nat k - 1).
Proof.
  revert d. induction k as [|k IH]; intros d; [cbn; lia|].
  rewrite <- backoff_cons. cbn [foldr]. rewrite IH.
  rewrite Nat2Z.inj_succ, Z.pow_succ_r by lia. lia.
Qed.

(** [k] calls that fail, none of them the last one allowed. *)
Lemma retry_from_skip operation maxRetries (k : nat) :
  ∀ fuel i delay calls waits,
    (∀ j, (j < k)%nat → ∃ e, operation (calls + j)%nat = Failed e) →
    i + Z.of_nat k < maxRetries →
    retry_from (k + fuel) operation maxRetries i delay calls waits
    = retry_from fuel operation maxRetries (i + Z.of_nat k)
        (delay * 2 ^ Z.of_nat k) (calls + k)
        (waits ++ ((λ j : nat, delay * 2 ^ Z.of_nat j) <$> seq 0 k)).
Proof.
  induction k as [|k IH]; intros fuel i delay calls waits Hfail Hlt.
  - cbn [seq fmap list_fmap Nat.add]. rewrite app_nil_r, Nat.add_0_r.
    f_equal; cbn; lia.
  - cbn [Nat.add retry_from].
    destruct (Z.ltb_spec i maxRetries); [|lia].
    destruct (Hfail 0%nat) as [e He]; [lia|]. rewrite Nat.add_0_r in He.
    rewrite He. destruct (Z.eqb_spec i (maxRetries - 1)); [lia|].
    rewrite IH.
    + rewrite <- backoff_cons, <- app_assoc. cbn [app].
      f_equal; [lia| |lia].
      rewrite Nat2Z.inj_succ, Z.pow_succ_r by lia. lia.
    + intros j Hj. destruct (Hfail (S j)) as [e' He']; [lia|].
      exists e'. rewrite <- He'. f_equal. lia.
    + lia.
Qed.

(** The loop ends within [maxRetries - i] iterations. *)
Lemma retry_from_settles operation maxRetries (fuel : nat) :
  ∀ i delay calls waits,
    maxRetries - i ≤ Z.of_nat fuel →
    is_Some (retry_from fuel operation maxRetries i delay calls waits).
Proof.
  induction fuel as [|fuel IH]; intros i delay calls waits Hfuel;
    cbn [retry_from]; destruct (Z.ltb_spec i maxRetries); try done; try lia.
  destruct (operation calls); [done|].
  destruct (Z.eqb_spec i (maxRetries - 1)); [done|]. apply IH. lia.
Qed.

(** X21.  [retry] always settles. It resolves with the value of the first
    call that succeeds, when that is among the first [maxRetries], after one
    wait for each call that failed, the first of [delay] and each of twice
    the one before; it rejects with the error of call number [maxRetries]
    when none of them succeeds, without waiting after it; with [maxRetries]
    of [0] or less it calls nothing and resolves with [undefined]. *)
Theorem retry_backs_off (operation : nat → settled) (maxRetries delay : Z) :
  let n := Z.to_nat maxRetries in
  let backoff (k : nat) : list Z :=
    (λ j : nat, delay * 2 ^ Z.of_nat j) <$> seq 0 k in
  let r := retry operation (Some maxRetries) (Some delay) in
  is_Some r
  ∧ (∀ k v, (k < n)%nat →
       (∀ j, (j < k)%nat → ∃ e, operation j = Failed e) →
       operation k = Fulfilled v →
       r = Some (Fulfilled v, S k, backoff k)
       ∧ foldr Z.add 0 (backoff k) = delay * (2 ^ Z.of_nat k - 1))
  ∧ (∀ e, (0 < n)%nat →
       (∀ j, (j < n)%nat → ∃ e', operation j = Failed e') →
       operation (n - 1)%nat = Failed e →
       r = Some (Failed e, n, backoff (n - 1)%nat)
       ∧ foldr Z.add 0 (backoff (n - 1)%nat)
         = delay * (2 ^ (maxRetries - 1) - 1))
  ∧ (maxRetries ≤ 0 → r = Some (Fulfilled JUndefined, 0%nat, [])).
Proof.
  cbn zeta. unfold retry.
  change (default 3 (Some maxRetries)) with maxRetries.
  change (default 1000 (Some delay)) with delay.
  set (n := Z.to_nat maxRetries).
  assert (∀ k v, (k < n)%nat →
            (∀ j, (j < k)%nat → ∃ e, operation j = Failed e) →
            operation k = Fulfilled v →
            retry_from n operation maxRetries 0 delay 0 []
            = Some (Fulfilled v, S k,
                    (λ j : nat, delay * 2 ^ Z.of_nat j) <$> seq 0 k)) as Hok.
  { intros k v Hk Hfail Hv.
    replace n with (k + S (n - k - 1))%nat by lia.
    rewrite retry_from_skip by (done || lia).
    cbn [retry_from app Nat.add].
    destruct (Z.ltb_spec (0 + Z.of_nat k) maxRetries); [|lia].
    by rewrite Hv. }
  assert (∀ e, (0 < n)%nat →
            (∀ j, (j < n)%nat → ∃ e', operation j = Failed e') →
            operation (n - 1)%nat = Failed e →
            retry_from n operation maxRetries 0 delay 0 []
            = Some (Failed e, n,
                    (λ j : nat, delay * 2 ^ Z.of_nat j) <$> seq 0 (n - 1))) as Hko.
  { intros e Hn Hfail He.
    replace n with ((n - 1) + 1)%nat at 1 by lia.
    rewrite retry_from_skip by (intros; apply Hfail; lia) || lia.
    cbn [retry_from app Nat.add].
    destruct (Z.ltb_spec (0 + Z.of_nat (n - 1)) maxRetries); [|lia].
    rewrite He.
    destruct (Z.eqb_spec (0 + Z.of_nat (n - 1)) (maxRetries - 1)); [|lia].
    do 3 f_equal. lia. }
  split_and!.
  - apply retry_from_settles. lia.
  - intros k v Hk Hfail Hv. split; [by apply Hok|apply backoff_sum].
  - intros e Hn Hfail He. split; [by apply Hko|].
    rewrite backoff_sum. do 3 f_equal. lia.
  - intros Hle. unfold n. rewrite Z2Nat.nonpos by done.
    cbn [retry_from]. destruct (Z.ltb_spec 0 maxRetries); [lia|done].
Qed.

End ErrorHandlerFacts.

(** ** The technician filter *)

Module AppFacts.
Import JS JSFacts VirtualScrollingManager AppController.

(** X23.  The technician filter hands the renderer the cached vouchers of
    the selected technician, in the order of the cache, or all of them
    when nothing is selected; the total height is that of the list handed
    over, every item rendered is one of that technician, and while the
    cache has not been loaded the list is emptied. *)
Theorem technician_filter_shows_the_selected
    (rf : positive) (a : AppController.state) (t : string)
    (v : VirtualScrollingManager.state) :
  technicianSelect a = Some t → virtualScrollingManager a = Some v →
  let all := default [] (VoucherManager.allVouchersCache (voucherManager a)) in
  ∃ v', filterVouchersByTechnician rf a = AppController.mk (voucherManager a) (Some v') (Some t)
    ∧ data v' `sublist_of` all
    ∧ (t = "" → data v' = all)
    ∧ (t ≠ "" → ∀ x, x ∈ data v' ↔ x ∈ all ∧ field x "technicianName" = JStr t)
    ∧ (t ≠ "" → ∀ i x, (i, x) ∈ rendered v' → field x "technicianName" = JStr t)
    ∧ totalHeight v' = Z.of_nat (length (data v')) * itemHeight v
    ∧ (VoucherManager.allVouchersCache (voucherManager a) = None → data v' = []).
Proof.
  intros Hsel Hvsm. cbn zeta. unfold filterVouchersByTechnician.
  rewrite Hsel, Hvsm. eexists. split; [reflexivity|].
  set (all := default [] _).
  set (filtered := if truthy (JStr t) then _ else _).
  assert (data (setData filtered (Some rf) v) = filtered) as Hd by reflexivity.
  assert (∀ i x, (i, x) ∈ rendered (setData filtered (Some rf) v) → x ∈ filtered)
    as Hren.
  { intros i x Hx.
    change (rendered (setData filtered (Some rf) v))
      with (omap (λ i, (λ d, (i, d)) <$> nth_js filtered i)
              (seqZ (startIndex (setData filtered (Some rf) v))
                 (endIndex (setData filtered (Some rf) v)
                  - startIndex (setData filtered (Some rf) v) + 1))) in Hx.
    apply list_elem_of_omap in Hx as (j & _ & Hj).
    unfold nth_js in Hj. destruct (j <? 0); [done|].
    destruct (filtered !! Z.to_nat j) as [y|] eqn:Hy; [|done].
    cbn in Hj. injection Hj as _ <-. by eapply list_elem_of_lookup_2. }
  rewrite Hd.
  assert (t = "" → filtered = all) as Hempty.
  { intros ->. done. }
  assert (t ≠ "" →
          filtered = filter (λ x, field x "technicianName" = JStr t) all) as Hsome.
  { intros Ht. subst filtered. cbn [truthy].
    destruct (String.eqb_spec t ""); done. }
  split_and!.
  - destruct (decide (t = "")) as [Ht|Ht].
    + by rewrite Hempty.
    + rewrite Hsome by done. apply sublist_filter.
  - done.
  - intros Ht x. rewrite Hsome by done. rewrite list_elem_of_filter. tauto.
  - intros Ht i x Hx. apply Hren in Hx. rewrite Hsome in Hx by done.
    by apply list_elem_of_filter in Hx as [? _].
  - reflexivity.
  - intros Hnone. subst filtered all. rewrite Hnone. cbn [default].
    by destruct (truthy _).
Qed.

Lemma technician_filter_shows_the_selected_witness :
  let x1 : record := {[ "technicianName" := JStr "Ko" ]} in
  let x2 : record := {[ "technicianName" := JStr "Mg" ]} in
  let vm := VoucherManager.mk (Some "u") None (Some [x1; x2; x1]) [] false
              None false None None 0 0 [] 1 None [] [] in
  let v := VirtualScrollingManager.mk 60 5 [] 0 600 0 0 0 None 0 true [] 0 in
  let a := AppController.mk vm (Some v) (Some "Ko") in
  technicianSelect a = Some "Ko" ∧ virtualScrollingManager a = Some v
  ∧ ∃ v', virtualScrollingManager (filterVouchersByTechnician 1 a) = Some v'
          ∧ ∀ x, x ∈ data v' → field x "technicianName" = JStr "Ko".
Proof.
  cbn zeta.
  set (a := AppController.mk _ _ _).
  set (v := VirtualScrollingManager.mk _ _ _ _ _ _ _ _ _ _ _ _ _).
  assert (technicianSelect a = Some "Ko") as Hsel by reflexivity.
  assert (virtualScrollingManager a = Some v) as Hvsm by reflexivity.
  split; [exact Hsel|]. split; [exact Hvsm|].
  destruct (technician_filter_shows_the_selected 1 a "Ko" v Hsel Hvsm)
    as (v' & -> & _ & _ & Hin & _).
  exists v'. split; [reflexivity|].
  intros x Hx. apply Hin in Hx as [_ Hx]; [exact Hx|discriminate].
Defined.

End AppFacts.
